(** * fluxion-out-prometheus: the metric handlers of [main.go]

    A shallow embedding of the event-to-metric engine of the plugin
    ([Metric.New], [Metric.labelValues], [Metric.scan],
    [Gauge.HandleEvent], [Counter.HandleEvent], [OutPrometheus.Encode])
    and the properties its specification states about them.

    Conventions.
    - Go's [error] is [option string]: [None] is [nil], [Some msg] is an
      error whose [Error()] is [msg].
    - [float64] is Rocq's primitive binary64 [float].
    - A method with a pointer receiver returns the receiver it leaves
      behind next to its Go results.
    - The two libraries the handlers call are not part of the plugin:
      go-scan's [ScanTree] is a parameter of the development (class
      [Scanner]), and so is the registration of a collector (class
      [Registerer]); the label-indexed vectors of the Prometheus client
      are modelled by module [prometheus] below.
    - The fields [Type] of [Metric] and [Record] of [message.Event] are
      [Type_] and [Record_] here; the string types [MetricType] and
      [CountMode] are [string]. *)

From Stdlib Require Import Floats.PrimFloat Strings.Ascii.
From stdpp Require Import gmap strings list fin_maps sorting.

(** ** Errors *)

Definition error : Type := option string.

Definition errors_New (msg : string) : error := Some msg.

(** [strings.HasPrefix(s, prefix)]. *)
Definition HasPrefix (s prefix : string) : bool := String.prefix prefix s.

(** ** The sink: label-indexed metric vectors

    A [GaugeVec] or [CounterVec] of the Prometheus client holds one
    child per combination of label values seen so far.
    [WithLabelValues] returns the child of a combination and creates it,
    at 0, the first time the combination is used; [Set], [Add] and [Inc]
    then act on that child. A vector is the finite map from label values
    to the value of the child. *)

Module prometheus.

Abbreviation Vec := (gmap (list string) float).

Definition NewVec : Vec := ∅.

Definition WithLabelValues (lvs : list string) (vec : Vec) : Vec :=
  match vec !! lvs with
  | Some _ => vec
  | None => <[lvs := 0%float]> vec
  end.

(** The value of the child of a combination, as reading it through
    [WithLabelValues] gives it: a child not created yet reads as the 0
    it is created with. *)
Definition sample (vec : Vec) (lvs : list string) : float :=
  default 0%float (vec !! lvs).

Definition Set_ (lvs : list string) (v : float) (vec : Vec) : Vec :=
  <[lvs := v]> vec.

Definition Add (lvs : list string) (v : float) (vec : Vec) : Vec :=
  <[lvs := (sample vec lvs + v)%float]> vec.

Definition Inc (lvs : list string) (vec : Vec) : Vec :=
  Add lvs 1%float vec.

End prometheus.

(** ** Scan targets

    [ScanTree] and [Metric.scan] receive their destination as an
    [interface{}] holding a pointer. The plugin passes three kinds of
    destination: [*string] (labels), [*float64] (values) and
    [*interface{}] (the presence test of the counting modes). *)

Inductive target : Type := PString | PFloat64 | PInterface.

(** What a destination of each kind holds; [Dyn] is the type of the
    dynamic values found in a record. *)
Definition deref (Dyn : Type) (t : target) : Type :=
  match t with
  | PString => string
  | PFloat64 => float
  | PInterface => option Dyn
  end.

(** The zero value a [var] declaration gives the destination. *)
Definition zero {Dyn : Type} (t : target) : deref Dyn t :=
  match t with
  | PString => ""
  | PFloat64 => 0%float
  | PInterface => None
  end.

(** go-scan, as the plugin sees it. [Rec] is the type of [ev.Record].
    [ScanTree record path t] stands for [scan.ScanTree(record, path,
    &dst)] with a destination of kind [t]: [inl v] when the call returns
    [nil] after storing [v] in the destination, [inr msg] when it
    returns an error with message [msg]; the destination is stored to
    only on success. *)
Class Scanner : Type := {
  Rec : Type;
  Dyn : Type;
  ScanTree : Rec -> string -> forall t : target, deref Dyn t + string
}.

(** [prometheus.Register] on the default registry: the registry and the
    outcome of a registration (metric name, help text, label names) are
    left open. *)
Class Registerer : Type := {
  Registry : Type;
  Register : string -> string -> list string -> Registry -> error * Registry
}.

Section Plugin.

Context {scanner : Scanner} {registerer : Registerer}.

Record Event : Type := mkEvent {
  Tag : string;
  Record_ : Rec
}.

(** ** Metric definitions *)

Record Metric : Type := mkMetric {
  Type_ : string;
  Help : string;
  Value : string;
  CountMode : string;
  Labels : gmap string string;
  labelKeys : list string
}.

(** [sort.Strings]: increasing byte-wise order. *)
Definition sort_Strings (l : list string) : list string :=
  merge_sort String.le l.

(** [m.Labels[key]]: a Go map read, the zero value for a missing key. *)
Definition Labels_at (m : Metric) (key : string) : string :=
  default "" (Labels m !! key).

(** [Metric.scan]. The destination starts at its zero value (every call
    site declares it with [var] just before); the result pairs the
    destination after the call with the returned error. *)
Definition scan (m : Metric) (ev : Event) (p : string) (t : target)
  : deref Dyn t * error :=
  match ScanTree (Record_ ev) p t with
  | inl v => (v, None)
  | inr msg =>
      (zero t, if HasPrefix msg "invalid path" then None else Some msg)
  end.

(** [Metric.labelValues]: the loop over [m.labelKeys], [vals] being the
    slice built so far. *)
Fixpoint labelValues_loop (m : Metric) (ev : Event) (keys vals : list string)
  : list string * error :=
  match keys with
  | [] => (vals, None)
  | key :: keys' =>
      match scan m ev (Labels_at m key) PString with
      | (_, Some err) => ([], Some err)
      | (s, None) => labelValues_loop m ev keys' (vals ++ [s])
      end
  end.

Definition labelValues (m : Metric) (ev : Event) : list string * error :=
  labelValues_loop m ev (labelKeys m) [].

(** What one turn of that loop leaves in [s] for label [key], and the
    error it tests. *)
Definition label_value (m : Metric) (ev : Event) (key : string) : string :=
  (scan m ev (Labels_at m key) PString).1.

Definition label_error (m : Metric) (ev : Event) (key : string) : error :=
  (scan m ev (Labels_at m key) PString).2.

(** ** Handlers *)

Record Gauge : Type := mkGauge {
  Gauge_Metric : Metric;
  GaugeVec : prometheus.Vec
}.

Record Counter : Type := mkCounter {
  Counter_Metric : Metric;
  CounterVec : prometheus.Vec
}.

(** The two implementations of the [Handler] interface. *)
Inductive Handler : Type :=
| HGauge (g : Gauge)
| HCounter (c : Counter).

Definition Handler_Metric (h : Handler) : Metric :=
  match h with
  | HGauge g => Gauge_Metric g
  | HCounter c => Counter_Metric c
  end.

Definition Handler_Vec (h : Handler) : prometheus.Vec :=
  match h with
  | HGauge g => GaugeVec g
  | HCounter c => CounterVec c
  end.

Definition newGauge (name : string) (m : Metric) (reg : Registry)
  : option Gauge * error * Registry :=
  match Register name (Help m) (labelKeys m) reg with
  | (Some err, reg') => (None, Some err, reg')
  | (None, reg') =>
      (Some {| Gauge_Metric := m; GaugeVec := prometheus.NewVec |}, None, reg')
  end.

Definition newCounter (name : string) (m : Metric) (reg : Registry)
  : option Counter * error * Registry :=
  match Register name (Help m) (labelKeys m) reg with
  | (Some err, reg') => (None, Some err, reg')
  | (None, reg') =>
      (Some {| Counter_Metric := m; CounterVec := prometheus.NewVec |},
       None, reg')
  end.

(** The receiver after the two assignments that open [Metric.New].
    [order] is the order in which [range m.Labels] happens to yield the
    keys of the map. *)
Definition New_prepare (m : Metric) (order : list string) : Metric :=
  let CountMode' := if decide (CountMode m = "") then "value" else CountMode m in
  {| Type_ := Type_ m; Help := Help m; Value := Value m;
     CountMode := CountMode'; Labels := Labels m;
     labelKeys := sort_Strings (labelKeys m ++ order) |}.

(** [Metric.New]: the receiver as the call leaves it, the handler and
    error returned, and the registry. *)
Definition New (m : Metric) (name : string) (order : list string)
    (reg : Registry) : Metric * (option Handler * error) * Registry :=
  let m' := New_prepare m order in
  if decide (Type_ m' = "gauge") then
    match newGauge name m' reg with
    | (Some g, err, reg') => (m', (Some (HGauge g), err), reg')
    | (None, err, reg') => (m', (None, err), reg')
    end
  else if decide (Type_ m' = "counter") then
    match newCounter name m' reg with
    | (Some c, err, reg') => (m', (Some (HCounter c), err), reg')
    | (None, err, reg') => (m', (None, err), reg')
    end
  else (m', (None, Some ("Unknown metric type: " +:+ Type_ m')), reg).

(** [Gauge.HandleEvent]. *)
Definition Gauge_HandleEvent (g : Gauge) (ev : Event) : Gauge * error :=
  let m := Gauge_Metric g in
  match scan m ev (Value m) PFloat64 with
  | (_, Some err) => (g, Some err)
  | (v, None) =>
      match labelValues m ev with
      | (_, Some err) => (g, Some err)
      | (lvals, None) =>
          ({| Gauge_Metric := m;
              GaugeVec :=
                prometheus.Set_ lvals v
                  (prometheus.WithLabelValues lvals (GaugeVec g)) |},
           None)
      end
  end.

(** [Counter.HandleEvent]. *)
Definition Counter_HandleEvent (g : Counter) (ev : Event) : Counter * error :=
  let m := Counter_Metric g in
  match labelValues m ev with
  | (_, Some err) => (g, Some err)
  | (lvals, None) =>
      let c := prometheus.WithLabelValues lvals (CounterVec g) in
      if decide (Value m = "") then
        ({| Counter_Metric := m; CounterVec := prometheus.Inc lvals c |}, None)
      else if decide (CountMode m = "value") then
        match scan m ev (Value m) PFloat64 with
        | (_, Some err) =>
            ({| Counter_Metric := m; CounterVec := c |}, Some err)
        | (v, None) =>
            if (v <? 0)%float then
              ({| Counter_Metric := m; CounterVec := c |},
               errors_New "Counter value must be >=0")
            else
              ({| Counter_Metric := m; CounterVec := prometheus.Add lvals v c |},
               None)
        end
      else
        let err := match ScanTree (Record_ ev) (Value m) PInterface with
                   | inl _ => None
                   | inr msg => Some msg
                   end in
        if bool_decide (CountMode m = "exist") && bool_decide (err = None)
           || bool_decide (CountMode m = "non_exist") && bool_decide (err <> None)
        then
          ({| Counter_Metric := m; CounterVec := prometheus.Inc lvals c |}, None)
        else ({| Counter_Metric := m; CounterVec := c |}, None)
  end.

Definition HandleEvent (h : Handler) (ev : Event) : Handler * error :=
  match h with
  | HGauge g => let '(g', err) := Gauge_HandleEvent g ev in (HGauge g', err)
  | HCounter c => let '(c', err) := Counter_HandleEvent c ev in (HCounter c', err)
  end.

(** ** Notions used in the statements *)

(** A label name whose path scans to an outright error. *)
Definition hard_label (m : Metric) (ev : Event) (key e : string) : Prop :=
  key ∈ labelKeys m ∧
  ScanTree (Record_ ev) (Labels_at m key) PString = inr e ∧
  HasPrefix e "invalid path" = false.

(** Whether the untyped [ScanTree] of the value path, the presence test
    of the counting modes, returns nil on the event. *)
Definition found (m : Metric) (ev : Event) : bool :=
  match ScanTree (Record_ ev) (Value m) PInterface with
  | inl _ => true
  | inr _ => false
  end.

(** What one [Inc] does to the value of a child. *)
Definition plus_one (x : float) : float := (x + 1)%float.

(** A counter fed a stream of events, one [HandleEvent] after the
    other. *)
Definition Counter_run (c : Counter) (evs : list Event) : Counter :=
  foldl (λ c ev, (Counter_HandleEvent c ev).1) c evs.

(** The events of a stream that carry the label values [L] and on which
    the presence test answers [present], and their number. *)
Definition hit (m : Metric) (L : list string) (present : bool) (ev : Event)
  : bool :=
  bool_decide ((labelValues m ev).1 = L) && bool_decide (found m ev = present).

Definition hits (m : Metric) (L : list string) (present : bool)
    (evs : list Event) : nat :=
  length (filter (λ ev, hit m L present ev = true) evs).

(** ** The dispatcher *)

(** The fields of [OutPrometheus] that [Encode] touches: the handlers
    and, standing for [p.env.Log], the messages logged at error level. *)
Record OutPrometheus : Type := mkOutPrometheus {
  handlers : list Handler;
  Log : list string
}.

(** The loop of [Encode] over the handlers still to run. *)
Fixpoint Encode_loop (hs : list Handler) (ev : Event) (log : list string)
  : list Handler * list string :=
  match hs with
  | [] => ([], log)
  | h :: hs' =>
      let '(h', err) := HandleEvent h ev in
      let log' := match err with
                  | Some e => log ++ [e]
                  | None => log
                  end in
      let '(hs'', log'') := Encode_loop hs' ev log' in
      (h' :: hs'', log'')
  end.

(** [OutPrometheus.Encode]: the plugin afterwards, and the Go results
    ([buffer.StringItem("")] and the error). *)
Definition Encode (p : OutPrometheus) (ev : Event)
  : OutPrometheus * (string * error) :=
  let '(hs, log) := Encode_loop (handlers p) ev (Log p) in
  ({| handlers := hs; Log := log |}, ("", None)).

(** ** Decoding the configuration *)

(** [MetricType.UnmarshalText]: the receiver after the call and the
    error. [string(b)] is the string of the same bytes. *)
Definition MetricType_UnmarshalText (t : string) (b : list Byte.byte)
  : string * error :=
  let s := String.string_of_list_byte b in
  if decide (s = "gauge" ∨ s = "counter") then (s, None)
  else (t, Some ("Unknown metric type: " +:+ s)).

(** [CountMode.UnmarshalText]. *)
Definition CountMode_UnmarshalText (m : string) (b : list Byte.byte)
  : string * error :=
  let s := String.string_of_list_byte b in
  if decide (s = "value" ∨ s = "exist" ∨ s = "non_exist") then (s, None)
  else (m, Some ("Unknown count mode: " +:+ s)).

(** ** Building the handlers *)

(** The first loop of [OutPrometheus.Start], over the metrics of the
    configuration still to build: each item is a name, the copy of its
    definition that the range hands out, and the order in which the
    range over its labels will yield them. The result is [p.handlers],
    the error [Start] returns at once if there is one, and the registry.
    [Metric.New] returns a handler whenever its error is nil, so the
    last arm is never taken. What [Start] does after the loop (the HTTP
    route, the listener) is outside this model. *)
Fixpoint Start_loop (items : list (string * Metric * list string))
    (hs : list Handler) (reg : Registry) : list Handler * error * Registry :=
  match items with
  | [] => (hs, None, reg)
  | (name, metric, order) :: items' =>
      match New metric name order reg with
      | (_, (_, Some err), reg') => (hs, Some err, reg')
      | (_, (Some h, None), reg') => Start_loop items' (hs ++ [h]) reg'
      | (_, (None, None), reg') => Start_loop items' hs reg'
      end
  end.

(** The metric types [Metric.New] builds a handler for. *)
Definition known_type (t : string) : Prop := t = "gauge" ∨ t = "counter".

(** The handler [Start] appends for an item when [Metric.New]
    succeeds. *)
Definition built (item : string * Metric * list string) : Handler :=
  let m' := New_prepare item.1.2 item.2 in
  if decide (Type_ m' = "gauge")
  then HGauge {| Gauge_Metric := m'; GaugeVec := prometheus.NewVec |}
  else HCounter {| Counter_Metric := m'; CounterVec := prometheus.NewVec |}.

(** ** Streams of events *)

Definition Gauge_run (g : Gauge) (evs : list Event) : Gauge :=
  foldl (λ g ev, (Gauge_HandleEvent g ev).1) g evs.

(** What an event makes a gauge set, when its update succeeds: the
    label values and the number. *)
Definition Gauge_write (m : Metric) (ev : Event) : option (list string * float) :=
  match scan m ev (Value m) PFloat64, labelValues m ev with
  | (v, None), (lvals, None) => Some (lvals, v)
  | _, _ => None
  end.

(** Whether an event makes a counter count one, when the counter has no
    value path or is in one of the presence modes. *)
Definition counts (m : Metric) (ev : Event) : bool :=
  bool_decide (Value m = "")
  || bool_decide (CountMode m = "exist") && found m ev
  || bool_decide (CountMode m = "non_exist") && negb (found m ev).

(** What such a counter does to its vector for the label values [lv]:
    [Inc] when the event counts, the mere [WithLabelValues] when not. *)
Definition count_step (lv : list string) (b : bool) (vec : prometheus.Vec)
  : prometheus.Vec :=
  if b then <[lv := plus_one (prometheus.sample vec lv)]> vec
  else prometheus.WithLabelValues lv vec.

End Plugin.

(** ** A concrete scanner and registry

    Records as trees of string-keyed maps and scalars, addressed by
    slash-separated paths, with a scanner in the manner of go-scan: a
    missing key is reported as [invalid path: key], a step into a
    scalar or a value that does not fit the destination as another
    error. With the registry below it makes the handlers run on
    concrete events. *)

Module Sample.

#[warnings="-register-all"]
Inductive tree : Type :=
| Str (s : string)
| Num (f : float)
| Bool (b : bool)
| Map (kvs : list (string * tree)).

(** The tokens of a path between slashes, empty ones dropped; [cur]
    is the token being read. *)
Fixpoint tokens (p cur : string) : list string :=
  match p with
  | EmptyString => if decide (cur = "") then [] else [cur]
  | String c p' =>
      if decide (c = "/"%char)
      then (if decide (cur = "") then [] else [cur]) ++ tokens p' ""
      else tokens p' (cur +:+ String c "")
  end.

Fixpoint assoc (key : string) (kvs : list (string * tree)) : option tree :=
  match kvs with
  | [] => None
  | (k, v) :: kvs' => if decide (k = key) then Some v else assoc key kvs'
  end.

Fixpoint walk (toks : list string) (v : tree) : tree + string :=
  match toks with
  | [] => inl v
  | tok :: toks' =>
      match v with
      | Map kvs =>
          match assoc tok kvs with
          | Some v' => walk toks' v'
          | None => inr ("invalid path: " +:+ tok)
          end
      | _ => inr "interface conversion: interface {} is not map[string]interface {}"
      end
  end.

Definition store (v : tree) (t : target) : deref tree t + string :=
  match t with
  | PString =>
      match v with
      | Str s => inl s
      | _ => inr "reflect.Set: value is not assignable to type string"
      end
  | PFloat64 =>
      match v with
      | Num f => inl f
      | _ => inr "reflect.Set: value is not assignable to type float64"
      end
  | PInterface => inl (Some v)
  end.

Definition scan_tree (rec : tree) (p : string) (t : target)
  : deref tree t + string :=
  match p with
  | String "/" _ =>
      match walk (tokens p "") rec with
      | inl v => store v t
      | inr msg => inr msg
      end
  | _ => inr "invalid path"
  end.

#[export] Instance scanner : Scanner :=
  {| Rec := tree; Dyn := tree; ScanTree := scan_tree |}.

(** A registry that knows the registered names and refuses a name
    twice. *)
Definition register (name help : string) (labels : list string)
    (reg : list string) : error * list string :=
  if decide (name ∈ reg)
  then (Some "duplicate metrics collector registration attempted", reg)
  else (None, name :: reg).

#[export] Instance registerer : Registerer :=
  {| Registry := list string; Register := register |}.

(** The registry before anything is registered. *)
Definition fresh : @Registry registerer := ([] : list string).

Definition metric (type value mode : string) (labels : list (string * string))
  : Metric :=
  {| Type_ := type; Help := ""; Value := value; CountMode := mode;
     Labels := list_to_map labels; labelKeys := [] |}.

Definition event (kvs : list (string * tree)) : Event :=
  {| Tag := "sample"; Record_ := Map kvs |}.

(** A definition with the one label [host], and the handlers
    [Metric.New] makes of it. *)
Definition definition (type value mode : string) : Metric :=
  New_prepare (metric type value mode [("host", "/host")]) ["host"].

Definition gauge (value : string) : Gauge :=
  {| Gauge_Metric := definition "gauge" value "";
     GaugeVec := prometheus.NewVec |}.

Definition counter (value mode : string) : Counter :=
  {| Counter_Metric := definition "counter" value mode;
     CounterVec := prometheus.NewVec |}.

(** Events of host [web1]: a load reading, a field [n], nothing
    else. *)
Definition load (x : float) : Event :=
  event [("host", Str "web1"); ("cpu", Map [("load", Num x)])].

Definition field (v : tree) : Event :=
  event [("host", Str "web1"); ("n", v)].

Definition bare : Event := event [("host", Str "web1")].

End Sample.

(** * Properties *)

(** ** The sink *)

Section Sink.

Import prometheus.

Implicit Types (vec : Vec) (L lvs : list string) (v : float).

Lemma lookup_WithLabelValues vec lvs :
  WithLabelValues lvs vec !! lvs = Some (sample vec lvs).
Proof.
  unfold WithLabelValues, sample.
  destruct (vec !! lvs) as [x|] eqn:E; simpl.
  - exact E.
  - apply lookup_insert_eq.
Qed.

Lemma lookup_WithLabelValues_ne vec lvs L :
  lvs ≠ L → WithLabelValues lvs vec !! L = vec !! L.
Proof.
  intros Hne. unfold WithLabelValues.
  destruct (vec !! lvs); [done|]. by rewrite lookup_insert_ne.
Qed.

Lemma sample_WithLabelValues vec lvs L :
  sample (WithLabelValues lvs vec) L = sample vec L.
Proof.
  destruct (decide (lvs = L)) as [->|Hne].
  - unfold sample at 1. by rewrite lookup_WithLabelValues.
  - unfold sample. by rewrite lookup_WithLabelValues_ne.
Qed.

Lemma WithLabelValues_subseteq vec lvs : vec ⊆ WithLabelValues lvs vec.
Proof.
  unfold WithLabelValues.
  destruct (vec !! lvs) eqn:E; [done|]. by apply insert_subseteq.
Qed.

Lemma WithLabelValues_created vec lvs :
  is_Some (vec !! lvs) → WithLabelValues lvs vec = vec.
Proof. intros [x E]. unfold WithLabelValues. by rewrite E. Qed.

Lemma Set_WithLabelValues vec lvs v :
  Set_ lvs v (WithLabelValues lvs vec) = <[lvs := v]> vec.
Proof.
  unfold Set_, WithLabelValues.
  destruct (vec !! lvs); [done|]. apply insert_insert_eq.
Qed.

Lemma Add_WithLabelValues vec lvs v :
  Add lvs v (WithLabelValues lvs vec) = <[lvs := (sample vec lvs + v)%float]> vec.
Proof.
  unfold Add. rewrite sample_WithLabelValues.
  unfold WithLabelValues.
  destruct (vec !! lvs); [done|]. apply insert_insert_eq.
Qed.

Lemma Inc_WithLabelValues vec lvs :
  Inc lvs (WithLabelValues lvs vec) = <[lvs := (sample vec lvs + 1)%float]> vec.
Proof. apply Add_WithLabelValues. Qed.

Lemma sample_insert vec lvs v L :
  sample (<[lvs := v]> vec) L = if decide (lvs = L) then v else sample vec L.
Proof. unfold sample. rewrite lookup_insert. by case_decide. Qed.

End Sink.

(** ** Sorting the label names *)

Lemma sort_Strings_Sorted (l : list string) : Sorted String.le (sort_Strings l).
Proof. apply Sorted_merge_sort, _. Qed.

Lemma sort_Strings_Permutation (l : list string) : sort_Strings l ≡ₚ l.
Proof. apply merge_sort_Permutation. Qed.

(** Two sorted lists without repetition that have the same elements
    are the same list. *)
Lemma Sorted_same_elements (l1 l2 : list string) :
  Sorted String.le l1 → Sorted String.le l2 →
  NoDup l1 → NoDup l2 → (∀ k, k ∈ l1 ↔ k ∈ l2) → l1 = l2.
Proof.
  intros S1 S2 N1 N2 Hel.
  apply (Sorted_unique String.le); [done..|].
  by apply NoDup_Permutation.
Qed.

Section Properties.

Context {scanner : Scanner} {registerer : Registerer}.

Implicit Types (m : Metric) (ev : Event) (h : Handler) (g : Gauge)
  (c : Counter) (p : OutPrometheus) (L lvals : list string).

(** ** [Metric.scan] *)

Lemma scan_inl m ev (path : string) (t : target) (v : deref Dyn t) :
  ScanTree (Record_ ev) path t = inl v → scan m ev path t = (v, None).
Proof. intros E. unfold scan. by rewrite E. Qed.

Lemma scan_soft m ev (path : string) (t : target) (msg : string) :
  ScanTree (Record_ ev) path t = inr msg →
  HasPrefix msg "invalid path" = true →
  scan m ev path t = (zero t, None).
Proof. intros E Hp. unfold scan. by rewrite E, Hp. Qed.

Lemma scan_hard m ev (path : string) (t : target) (msg : string) :
  ScanTree (Record_ ev) path t = inr msg →
  HasPrefix msg "invalid path" = false →
  scan m ev path t = (zero t, Some msg).
Proof. intros E Hp. unfold scan. by rewrite E, Hp. Qed.

(** [scan] fails exactly on the errors of [ScanTree] that do not start
    with the words of a missing path. *)
Lemma scan_error_iff m ev (path : string) (t : target) (e : string) :
  (scan m ev path t).2 = Some e ↔
  ScanTree (Record_ ev) path t = inr e ∧ HasPrefix e "invalid path" = false.
Proof.
  unfold scan.
  destruct (ScanTree (Record_ ev) path t) as [v|msg]; simpl.
  - split; [done|]. by intros [? _].
  - destruct (HasPrefix msg "invalid path") eqn:Hp; simpl.
    + split; [done|]. intros [[= ->] ?]. congruence.
    + split.
      * by intros [= ->].
      * by intros [[= ->] _].
Qed.

(** The scan does not read the definition it is a method of. *)
Lemma scan_receiver m m' ev (path : string) (t : target) :
  scan m ev path t = scan m' ev path t.
Proof. reflexivity. Qed.

(** ** [Metric.labelValues] *)

Lemma labelValues_loop_ok m ev (keys vals : list string) :
  Forall (λ key, label_error m ev key = None) keys →
  labelValues_loop m ev keys vals = (vals ++ (label_value m ev <$> keys), None).
Proof.
  intros Hok. revert vals.
  induction Hok as [|key keys Hkey _ IH]; intros vals; simpl.
  - by rewrite app_nil_r.
  - unfold label_error in Hkey. unfold label_value at 1.
    destruct (scan m ev (Labels_at m key) PString) as [s err]; simpl in *.
    subst err. rewrite IH. by rewrite <- app_assoc.
Qed.

Lemma labelValues_loop_err m ev (pre post vals : list string) (key e : string) :
  Forall (λ key, label_error m ev key = None) pre →
  label_error m ev key = Some e →
  labelValues_loop m ev (pre ++ key :: post) vals = ([], Some e).
Proof.
  intros Hpre Hkey. revert vals.
  induction Hpre as [|k pre Hk _ IH]; intros vals; simpl.
  - unfold label_error in Hkey.
    destruct (scan m ev (Labels_at m key) PString) as [s err]; simpl in *.
    by subst err.
  - unfold label_error in Hk.
    destruct (scan m ev (Labels_at m k) PString) as [s err]; simpl in *.
    subst err. apply IH.
Qed.

(** The first label whose scan fails, if there is one. *)
Lemma label_errors_cases m ev (keys : list string) :
  Forall (λ key, label_error m ev key = None) keys ∨
  ∃ pre key post e,
    keys = pre ++ key :: post ∧
    Forall (λ key, label_error m ev key = None) pre ∧
    label_error m ev key = Some e.
Proof.
  induction keys as [|k keys IH].
  - left. constructor.
  - destruct (label_error m ev k) as [e|] eqn:Ek.
    + right. exists [], k, keys, e. by repeat split.
    + destruct IH as [Hok|(pre & key & post & e & -> & Hpre & Hkey)].
      * left. by constructor.
      * right. exists (k :: pre), key, post, e. repeat split; [|done].
        by constructor.
Qed.

Lemma labelValues_Some_inv m ev lvals (e : string) :
  labelValues m ev = (lvals, Some e) →
  lvals = [] ∧
  ∃ pre key post,
    labelKeys m = pre ++ key :: post ∧
    Forall (λ key, label_error m ev key = None) pre ∧
    label_error m ev key = Some e.
Proof.
  unfold labelValues. intros E.
  destruct (label_errors_cases m ev (labelKeys m))
    as [Hok|(pre & key & post & e' & Hk & Hpre & Hkey)].
  - rewrite (labelValues_loop_ok _ _ _ _ Hok) in E. congruence.
  - rewrite Hk, (labelValues_loop_err _ _ _ _ _ _ _ Hpre Hkey) in E.
    injection E as <- ->. split; [done|]. by exists pre, key, post.
Qed.

Lemma labelValues_None_inv m ev lvals :
  labelValues m ev = (lvals, None) →
  Forall (λ key, label_error m ev key = None) (labelKeys m) ∧
  lvals = label_value m ev <$> labelKeys m.
Proof.
  unfold labelValues. intros E.
  destruct (label_errors_cases m ev (labelKeys m))
    as [Hok|(pre & key & post & e' & Hk & Hpre & Hkey)].
  - rewrite (labelValues_loop_ok _ _ _ _ Hok) in E. simpl in E.
    split; [done|]. congruence.
  - rewrite Hk, (labelValues_loop_err _ _ _ _ _ _ _ Hpre Hkey) in E. congruence.
Qed.

(** Label resolution reads the label map and the sorted names of the
    definition, nothing else of it. *)
Lemma labelValues_ext m m' ev :
  Labels m' = Labels m → labelKeys m' = labelKeys m →
  labelValues m' ev = labelValues m ev.
Proof.
  intros HL HK. unfold labelValues. rewrite HK. clear HK.
  generalize (@nil string) as vals.
  induction (labelKeys m) as [|key keys IH]; intros vals; simpl; [done|].
  unfold Labels_at. rewrite HL.
  rewrite (scan_receiver m' m).
  destruct (scan m ev (default "" (Labels m !! key)) PString) as [s [err|]].
  - done.
  - apply IH.
Qed.

(** ** The handlers keep their definition *)

Lemma Gauge_HandleEvent_Metric g ev :
  Gauge_Metric (Gauge_HandleEvent g ev).1 = Gauge_Metric g.
Proof.
  unfold Gauge_HandleEvent. cbv zeta.
  destruct (scan _ ev _ PFloat64) as [v [err|]]; [done|].
  by destruct (labelValues _ ev) as [lvals [err|]].
Qed.

Lemma Counter_HandleEvent_Metric c ev :
  Counter_Metric (Counter_HandleEvent c ev).1 = Counter_Metric c.
Proof.
  unfold Counter_HandleEvent. cbv zeta.
  destruct (labelValues _ ev) as [lvals [err|]]; [done|].
  destruct (decide (Value _ = "")); [done|].
  destruct (decide (CountMode _ = "value")).
  - destruct (scan _ ev _ PFloat64) as [v [err|]]; [done|].
    by destruct (v <? 0)%float.
  - by destruct (_ || _).
Qed.

Lemma HandleEvent_Metric h ev :
  Handler_Metric (HandleEvent h ev).1 = Handler_Metric h.
Proof.
  destruct h as [g|c]; simpl.
  - pose proof (Gauge_HandleEvent_Metric g ev) as E.
    by destruct (Gauge_HandleEvent g ev).
  - pose proof (Counter_HandleEvent_Metric c ev) as E.
    by destruct (Counter_HandleEvent c ev).
Qed.

(** ** The loop of the dispatcher *)

Lemma Encode_loop_spec (hs : list Handler) ev (log : list string) :
  Encode_loop hs ev log =
    ((λ h, (HandleEvent h ev).1) <$> hs,
     log ++ omap (λ h, (HandleEvent h ev).2) hs).
Proof.
  revert log. induction hs as [|h hs IH]; intros log; simpl.
  - by rewrite app_nil_r.
  - destruct (HandleEvent h ev) as [h' [e|]]; simpl; rewrite IH.
    + by rewrite <- app_assoc.
    + done.
Qed.

Lemma Encode_handlers p ev :
  handlers (Encode p ev).1 = (λ h, (HandleEvent h ev).1) <$> handlers p.
Proof. unfold Encode. by rewrite Encode_loop_spec. Qed.

Lemma Encode_Log p ev :
  Log (Encode p ev).1 = Log p ++ omap (λ h, (HandleEvent h ev).2) (handlers p).
Proof. unfold Encode. by rewrite Encode_loop_spec. Qed.

(** ** [Metric.New] *)

Lemma New_receiver m (name : string) (order : list string) (reg : Registry) :
  (New m name order reg).1.1 = New_prepare m order.
Proof.
  unfold New. repeat case_decide; [| |done].
  - by destruct (newGauge _ _ _) as [[[?|] ?] ?].
  - by destruct (newCounter _ _ _) as [[[?|] ?] ?].
Qed.

Lemma New_handler m (name : string) (order : list string) (reg : Registry)
    h (err : error) :
  (New m name order reg).1.2 = (Some h, err) →
  Handler_Metric h = New_prepare m order ∧ Handler_Vec h = ∅.
Proof.
  unfold New, newGauge, newCounter.
  repeat case_decide; [| |done];
    destruct (Register _ _ _ _) as [[e|] reg']; simpl; intros [= <- <-]; done.
Qed.

(** Construction succeeds for the two known types whenever the
    registration does. *)
Lemma New_registered m (name : string) (order : list string) (reg : Registry) :
  Type_ m = "gauge" ∨ Type_ m = "counter" →
  (Register name (Help m) (sort_Strings (labelKeys m ++ order)) reg).1 = None →
  ∃ h, (New m name order reg).1.2 = (Some h, None).
Proof.
  intros Ht Hr. unfold New, newGauge, newCounter. simpl.
  destruct (Register _ _ _ _) as [[e|] reg']; [done|].
  repeat case_decide; eauto. by destruct Ht.
Qed.

(** C1. For a definition as the configuration yields it (no label names
    computed yet), whatever order the range over the label map yields its
    keys in, the [labelKeys] that [Metric.New] computes are the sorted
    list of the keys of [Labels]: sorted, without repetition, with
    exactly the keys as elements, and the only such list. The handler
    built carries this definition; handling an event, alone or through
    the dispatcher, leaves the definition of a handler as it was; a
    label sequence that [labelValues] returns has one value per label
    name, the i-th value being the one resolved for the i-th name of
    [labelKeys]; and resolving again after the event was handled gives
    the same result. *)
Theorem labelKeys_sorted_once_and_order
    m (name : string) (order : list string) (reg : Registry) :
  labelKeys m = [] →
  NoDup order →
  (∀ key, key ∈ order ↔ is_Some (Labels m !! key)) →
  let m' := (New m name order reg).1.1 in
  (Sorted String.le (labelKeys m') ∧ NoDup (labelKeys m') ∧
   (∀ key, key ∈ labelKeys m' ↔ is_Some (Labels m !! key)) ∧
   (∀ l : list string,
      Sorted String.le l → NoDup l →
      (∀ key, key ∈ l ↔ is_Some (Labels m !! key)) → l = labelKeys m')) ∧
  Labels m' = Labels m ∧
  (∀ h (err : error),
     (New m name order reg).1.2 = (Some h, err) → Handler_Metric h = m') ∧
  (∀ h ev, Handler_Metric (HandleEvent h ev).1 = Handler_Metric h) ∧
  (∀ p ev,
     Handler_Metric <$> handlers (Encode p ev).1 = Handler_Metric <$> handlers p) ∧
  (∀ m0 ev lvals,
     labelValues m0 ev = (lvals, None) →
     length lvals = length (labelKeys m0) ∧
     ∀ (i : nat) (key : string),
       labelKeys m0 !! i = Some key → lvals !! i = Some (label_value m0 ev key)) ∧
  (∀ h ev,
     labelValues (Handler_Metric (HandleEvent h ev).1) ev =
     labelValues (Handler_Metric h) ev).
Proof.
  intros Hnil Hnd Hkeys m'. subst m'. rewrite New_receiver.
  assert (Hperm : labelKeys (New_prepare m order) ≡ₚ order).
  { simpl. rewrite Hnil. simpl. apply sort_Strings_Permutation. }
  assert (Hel : ∀ key,
    key ∈ labelKeys (New_prepare m order) ↔ is_Some (Labels m !! key)).
  { intros key. by rewrite Hperm. }
  assert (Hnd' : NoDup (labelKeys (New_prepare m order))) by by rewrite Hperm.
  split_and!.
  - apply sort_Strings_Sorted.
  - done.
  - done.
  - intros l Hs Hn Hl. apply Sorted_same_elements; try done.
    + apply sort_Strings_Sorted.
    + intros key. by rewrite Hl, Hel.
  - done.
  - intros h err Hh. by apply New_handler in Hh as [-> _].
  - apply HandleEvent_Metric.
  - intros p ev. rewrite Encode_handlers, <- list_fmap_compose.
    apply list_fmap_ext. intros i h _. apply HandleEvent_Metric.
  - intros m0 ev lvals El.
    apply labelValues_None_inv in El as [_ ->]. split.
    + by rewrite length_fmap.
    + intros i key Hi. by rewrite list_lookup_fmap, Hi.
  - intros h ev. by rewrite HandleEvent_Metric.
Qed.

(** C2. [Encode] runs [HandleEvent] of every handler on the event, in
    turn: each handler is left as its own [HandleEvent] leaves it,
    whether or not a handler before it failed; the log gains exactly the
    errors the handlers returned, in their order; and [Encode] itself
    returns a nil error. *)
Theorem Encode_runs_every_handler p ev :
  (Encode p ev).2.2 = None ∧
  (Encode p ev).2.1 = "" ∧
  handlers (Encode p ev).1 = (λ h, (HandleEvent h ev).1) <$> handlers p ∧
  Log (Encode p ev).1 =
    Log p ++ omap (λ h, (HandleEvent h ev).2) (handlers p) ∧
  (∀ (i : nat) h,
     handlers p !! i = Some h →
     handlers (Encode p ev).1 !! i = Some (HandleEvent h ev).1 ∧
     ∀ e : string, (HandleEvent h ev).2 = Some e → e ∈ Log (Encode p ev).1).
Proof.
  split_and!.
  - unfold Encode. by destruct (Encode_loop _ _ _).
  - unfold Encode. by destruct (Encode_loop _ _ _).
  - apply Encode_handlers.
  - apply Encode_Log.
  - intros i h Hi. split.
    + by rewrite Encode_handlers, list_lookup_fmap, Hi.
    + intros e He. rewrite Encode_Log. apply elem_of_app. right.
      apply list_elem_of_omap. exists h. split; [|done].
      by apply list_elem_of_lookup_2 in Hi.
Qed.

(** ** [Gauge.HandleEvent], case by case *)

Lemma Gauge_HandleEvent_value_err g ev (v : float) (e : string) :
  scan (Gauge_Metric g) ev (Value (Gauge_Metric g)) PFloat64 = (v, Some e) →
  Gauge_HandleEvent g ev = (g, Some e).
Proof. intros E. unfold Gauge_HandleEvent. cbv zeta. by rewrite E. Qed.

Lemma Gauge_HandleEvent_label_err g ev (v : float) lvals (e : string) :
  scan (Gauge_Metric g) ev (Value (Gauge_Metric g)) PFloat64 = (v, None) →
  labelValues (Gauge_Metric g) ev = (lvals, Some e) →
  Gauge_HandleEvent g ev = (g, Some e).
Proof. intros E1 E2. unfold Gauge_HandleEvent. cbv zeta. by rewrite E1, E2. Qed.

Lemma Gauge_HandleEvent_set g ev (v : float) lvals :
  scan (Gauge_Metric g) ev (Value (Gauge_Metric g)) PFloat64 = (v, None) →
  labelValues (Gauge_Metric g) ev = (lvals, None) →
  Gauge_HandleEvent g ev =
    ({| Gauge_Metric := Gauge_Metric g;
        GaugeVec := <[lvals := v]> (GaugeVec g) |}, None).
Proof.
  intros E1 E2. unfold Gauge_HandleEvent. cbv zeta.
  by rewrite E1, E2, Set_WithLabelValues.
Qed.

(** ** [Counter.HandleEvent], case by case *)

Lemma Counter_HandleEvent_label_err c ev lvals (e : string) :
  labelValues (Counter_Metric c) ev = (lvals, Some e) →
  Counter_HandleEvent c ev = (c, Some e).
Proof. intros E. unfold Counter_HandleEvent. cbv zeta. by rewrite E. Qed.

Lemma Counter_HandleEvent_implicit c ev lvals :
  labelValues (Counter_Metric c) ev = (lvals, None) →
  Value (Counter_Metric c) = "" →
  Counter_HandleEvent c ev =
    ({| Counter_Metric := Counter_Metric c;
        CounterVec :=
          <[lvals := (prometheus.sample (CounterVec c) lvals + 1)%float]>
            (CounterVec c) |}, None).
Proof.
  intros E Hv. unfold Counter_HandleEvent. cbv zeta. rewrite E.
  rewrite decide_True by done. by rewrite Inc_WithLabelValues.
Qed.

Lemma Counter_HandleEvent_value_err c ev lvals (v : float) (e : string) :
  labelValues (Counter_Metric c) ev = (lvals, None) →
  Value (Counter_Metric c) ≠ "" →
  CountMode (Counter_Metric c) = "value" →
  scan (Counter_Metric c) ev (Value (Counter_Metric c)) PFloat64 = (v, Some e) →
  Counter_HandleEvent c ev =
    ({| Counter_Metric := Counter_Metric c;
        CounterVec := prometheus.WithLabelValues lvals (CounterVec c) |},
     Some e).
Proof.
  intros E Hv Hm Es. unfold Counter_HandleEvent. cbv zeta. rewrite E.
  rewrite decide_False by done. rewrite decide_True by done. by rewrite Es.
Qed.

Lemma Counter_HandleEvent_negative c ev lvals (v : float) :
  labelValues (Counter_Metric c) ev = (lvals, None) →
  Value (Counter_Metric c) ≠ "" →
  CountMode (Counter_Metric c) = "value" →
  scan (Counter_Metric c) ev (Value (Counter_Metric c)) PFloat64 = (v, None) →
  (v <? 0)%float = true →
  Counter_HandleEvent c ev =
    ({| Counter_Metric := Counter_Metric c;
        CounterVec := prometheus.WithLabelValues lvals (CounterVec c) |},
     Some "Counter value must be >=0").
Proof.
  intros E Hv Hm Es Hneg. unfold Counter_HandleEvent. cbv zeta. rewrite E.
  rewrite decide_False by done. rewrite decide_True by done.
  by rewrite Es, Hneg.
Qed.

Lemma Counter_HandleEvent_add c ev lvals (v : float) :
  labelValues (Counter_Metric c) ev = (lvals, None) →
  Value (Counter_Metric c) ≠ "" →
  CountMode (Counter_Metric c) = "value" →
  scan (Counter_Metric c) ev (Value (Counter_Metric c)) PFloat64 = (v, None) →
  (v <? 0)%float = false →
  Counter_HandleEvent c ev =
    ({| Counter_Metric := Counter_Metric c;
        CounterVec :=
          <[lvals := (prometheus.sample (CounterVec c) lvals + v)%float]>
            (CounterVec c) |}, None).
Proof.
  intros E Hv Hm Es Hneg. unfold Counter_HandleEvent. cbv zeta. rewrite E.
  rewrite decide_False by done. rewrite decide_True by done.
  by rewrite Es, Hneg, Add_WithLabelValues.
Qed.

Lemma Counter_HandleEvent_presence c ev lvals :
  labelValues (Counter_Metric c) ev = (lvals, None) →
  Value (Counter_Metric c) ≠ "" →
  CountMode (Counter_Metric c) ≠ "value" →
  Counter_HandleEvent c ev =
    ({| Counter_Metric := Counter_Metric c;
        CounterVec :=
          if bool_decide (CountMode (Counter_Metric c) = "exist")
               && found (Counter_Metric c) ev
             || bool_decide (CountMode (Counter_Metric c) = "non_exist")
                  && negb (found (Counter_Metric c) ev)
          then <[lvals := (prometheus.sample (CounterVec c) lvals + 1)%float]>
                 (CounterVec c)
          else prometheus.WithLabelValues lvals (CounterVec c) |}, None).
Proof.
  intros E Hv Hm. unfold Counter_HandleEvent, found. cbv zeta. rewrite E.
  rewrite !decide_False by done.
  destruct (ScanTree (Record_ ev) (Value (Counter_Metric c)) PInterface)
    as [x|msg]; simpl.
  - rewrite !andb_true_r, andb_false_r, orb_false_r.
    case_bool_decide; by rewrite ?Inc_WithLabelValues.
  - rewrite andb_false_r, andb_true_r. simpl.
    case_bool_decide; by rewrite ?Inc_WithLabelValues.
Qed.

(** C3. When the value path of a gauge scans to a number [v] and the
    labels resolve to [lvals], the update succeeds and the vector
    afterwards is the one before with the child of [lvals] set to
    exactly [v], whatever that child held; the other children are
    untouched. A second such event, resolving to [v2] under [lvals2],
    leaves the child of [lvals2] at [v2]: on the same labels the first
    value is gone, not added to. *)
Theorem Gauge_sets_resolved_value g ev (v : float) lvals :
  ScanTree (Record_ ev) (Value (Gauge_Metric g)) PFloat64 = inl v →
  labelValues (Gauge_Metric g) ev = (lvals, None) →
  let g' := (Gauge_HandleEvent g ev).1 in
  (Gauge_HandleEvent g ev).2 = None ∧
  GaugeVec g' = <[lvals := v]> (GaugeVec g) ∧
  GaugeVec g' !! lvals = Some v ∧
  (∀ L, L ≠ lvals → GaugeVec g' !! L = GaugeVec g !! L) ∧
  ∀ ev2 (v2 : float) lvals2,
    ScanTree (Record_ ev2) (Value (Gauge_Metric g)) PFloat64 = inl v2 →
    labelValues (Gauge_Metric g) ev2 = (lvals2, None) →
    let g'' := (Gauge_HandleEvent g' ev2).1 in
    (Gauge_HandleEvent g' ev2).2 = None ∧
    GaugeVec g'' !! lvals2 = Some v2 ∧
    GaugeVec g'' = <[lvals2 := v2]> (<[lvals := v]> (GaugeVec g)).
Proof.
  intros Ev El g'. subst g'.
  rewrite (Gauge_HandleEvent_set g ev v lvals);
    [|by apply scan_inl|done]. simpl.
  split_and!; [done|done|by rewrite lookup_insert_eq| |].
  - intros L HL. by rewrite lookup_insert_ne.
  - intros ev2 v2 lvals2 Ev2 El2.
    rewrite (Gauge_HandleEvent_set _ ev2 v2 lvals2);
      [|by apply scan_inl|done]. simpl.
    by rewrite lookup_insert_eq.
Qed.

(** C4. A counter in mode [value] with a value path, on an event whose
    value path scans to a number [v].
    If [v < 0]: the update returns an error, which is the validation
    error [Counter value must be >=0] whenever the labels resolve; the
    value of the series is the same as before for every label
    combination, and every child the vector had keeps its value: nothing
    is added, and when the child of the combination existed the vector
    is the same as before ([WithLabelValues] ran before the check, so
    the child of a combination seen for the first time now exists, at
    its initial 0).
    If [v < 0] does not hold and the labels resolve to [lvals]: the
    update succeeds and the child of [lvals] holds its former value plus
    [v], the other children being untouched. *)
Theorem Counter_value_mode c ev (v : float) :
  Value (Counter_Metric c) ≠ "" →
  CountMode (Counter_Metric c) = "value" →
  ScanTree (Record_ ev) (Value (Counter_Metric c)) PFloat64 = inl v →
  let c' := (Counter_HandleEvent c ev).1 in
  let err := (Counter_HandleEvent c ev).2 in
  ((v <? 0)%float = true →
     is_Some err ∧
     (∀ lvals,
        labelValues (Counter_Metric c) ev = (lvals, None) →
        err = Some "Counter value must be >=0" ∧
        CounterVec c' = prometheus.WithLabelValues lvals (CounterVec c)) ∧
     (∀ L, prometheus.sample (CounterVec c') L = prometheus.sample (CounterVec c) L) ∧
     CounterVec c ⊆ CounterVec c' ∧
     (∀ lvals,
        labelValues (Counter_Metric c) ev = (lvals, None) →
        is_Some (CounterVec c !! lvals) → CounterVec c' = CounterVec c)) ∧
  ((v <? 0)%float = false →
     ∀ lvals,
       labelValues (Counter_Metric c) ev = (lvals, None) →
       err = None ∧
       CounterVec c' =
         <[lvals := (prometheus.sample (CounterVec c) lvals + v)%float]>
           (CounterVec c) ∧
       prometheus.sample (CounterVec c') lvals =
         (prometheus.sample (CounterVec c) lvals + v)%float ∧
       ∀ L, L ≠ lvals → CounterVec c' !! L = CounterVec c !! L).
Proof.
  intros Hv Hm Es c' err. subst c' err.
  apply (scan_inl (Counter_Metric c)) in Es.
  split.
  - intros Hneg.
    destruct (labelValues (Counter_Metric c) ev) as [lvals [e|]] eqn:El.
    + rewrite (Counter_HandleEvent_label_err c ev lvals e El). simpl.
      split_and!; [by eexists|done|done|done|done].
    + rewrite (Counter_HandleEvent_negative c ev lvals v); try done. simpl.
      split_and!.
      * by eexists.
      * by intros ? [= <-].
      * intros L. apply sample_WithLabelValues.
      * apply WithLabelValues_subseteq.
      * intros ? [= <-]. apply WithLabelValues_created.
  - intros Hneg lvals El.
    rewrite (Counter_HandleEvent_add c ev lvals v); try done. simpl.
    split_and!; [done|done| |].
    + by rewrite sample_insert, decide_True.
    + intros L HL. by rewrite lookup_insert_ne.
Qed.

(** C5. A counter whose value path is empty, on any event whose labels
    resolve to [lvals], whatever its counting mode and whatever else the
    event holds: the update succeeds and the child of [lvals] holds its
    former value plus 1, the other children being untouched. *)
Theorem Counter_empty_value_counts_events c ev lvals :
  Value (Counter_Metric c) = "" →
  labelValues (Counter_Metric c) ev = (lvals, None) →
  let c' := (Counter_HandleEvent c ev).1 in
  (Counter_HandleEvent c ev).2 = None ∧
  CounterVec c' =
    <[lvals := (prometheus.sample (CounterVec c) lvals + 1)%float]>
      (CounterVec c) ∧
  prometheus.sample (CounterVec c') lvals =
    (prometheus.sample (CounterVec c) lvals + 1)%float ∧
  ∀ L, L ≠ lvals → CounterVec c' !! L = CounterVec c !! L.
Proof.
  intros Hv El c'. subst c'.
  rewrite (Counter_HandleEvent_implicit c ev lvals El Hv). simpl.
  split_and!; [done|done| |].
  - by rewrite sample_insert, decide_True.
  - intros L HL. by rewrite lookup_insert_ne.
Qed.

(** C6. A counter in mode [exist] with a value path, on an event whose
    labels resolve to [lvals]. If the untyped scan of the value path
    succeeds, with whatever value, the update succeeds and the child of
    [lvals] holds its former value plus 1. If the scan fails, with
    whatever error, the update still returns no error and nothing is
    added: the value of the series is the same as before for every label
    combination, and the vector itself is the same when the child of
    [lvals] existed. *)
Theorem Counter_exist_mode c ev lvals :
  Value (Counter_Metric c) ≠ "" →
  CountMode (Counter_Metric c) = "exist" →
  labelValues (Counter_Metric c) ev = (lvals, None) →
  let c' := (Counter_HandleEvent c ev).1 in
  (Counter_HandleEvent c ev).2 = None ∧
  (∀ x : option Dyn,
     ScanTree (Record_ ev) (Value (Counter_Metric c)) PInterface = inl x →
     CounterVec c' =
       <[lvals := (prometheus.sample (CounterVec c) lvals + 1)%float]>
         (CounterVec c) ∧
     prometheus.sample (CounterVec c') lvals =
       (prometheus.sample (CounterVec c) lvals + 1)%float) ∧
  (∀ msg : string,
     ScanTree (Record_ ev) (Value (Counter_Metric c)) PInterface = inr msg →
     CounterVec c' = prometheus.WithLabelValues lvals (CounterVec c) ∧
     (∀ L, prometheus.sample (CounterVec c') L = prometheus.sample (CounterVec c) L) ∧
     (is_Some (CounterVec c !! lvals) → CounterVec c' = CounterVec c)).
Proof.
  intros Hv Hm El c'. subst c'.
  rewrite (Counter_HandleEvent_presence c ev lvals El Hv) by by rewrite Hm.
  rewrite Hm. simpl. unfold found.
  split_and!; [done| |].
  - intros x ->. simpl. split; [done|].
    by rewrite sample_insert, decide_True.
  - intros msg ->. simpl. split_and!; [done| |].
    + intros L. apply sample_WithLabelValues.
    + apply WithLabelValues_created.
Qed.

(** C10. A gauge on an event where the scan of the value path fails
    with an error that starts with [invalid path] while the labels
    resolve to [lvals]: the update succeeds and sets the child of
    [lvals] to 0, the zero value the destination was declared with. *)
Theorem Gauge_absent_value_sets_zero g ev (msg : string) lvals :
  ScanTree (Record_ ev) (Value (Gauge_Metric g)) PFloat64 = inr msg →
  HasPrefix msg "invalid path" = true →
  labelValues (Gauge_Metric g) ev = (lvals, None) →
  Gauge_HandleEvent g ev =
    ({| Gauge_Metric := Gauge_Metric g;
        GaugeVec := <[lvals := 0%float]> (GaugeVec g) |}, None) ∧
  GaugeVec (Gauge_HandleEvent g ev).1 !! lvals = Some 0%float.
Proof.
  intros Es Hp El.
  rewrite (Gauge_HandleEvent_set g ev 0%float lvals);
    [|by apply (scan_soft _ _ _ PFloat64 msg)|done].
  split; [done|]. simpl. apply lookup_insert_eq.
Qed.

(** ** Soft and hard errors *)

Lemma label_error_hard m ev (key e : string) :
  label_error m ev key = Some e ↔
  ScanTree (Record_ ev) (Labels_at m key) PString = inr e ∧
  HasPrefix e "invalid path" = false.
Proof. apply scan_error_iff. Qed.

Lemma label_value_resolved m ev (key : string) :
  label_value m ev key =
    match ScanTree (Record_ ev) (Labels_at m key) PString with
    | inl s => s
    | inr _ => ""
    end.
Proof.
  unfold label_value, scan.
  by destruct (ScanTree (Record_ ev) (Labels_at m key) PString).
Qed.

(** With a hard error on some label, resolution returns no list and the
    hard error of the first such label. *)
Lemma labelValues_hard m ev (key e : string) :
  hard_label m ev key e →
  ∃ key' e', hard_label m ev key' e' ∧ labelValues m ev = ([], Some e').
Proof.
  intros (Hin & Hs & Hp).
  destruct (label_errors_cases m ev (labelKeys m))
    as [Hok|(pre & key' & post & e' & Hk & Hpre & Hkey)].
  - rewrite Forall_forall in Hok. specialize (Hok key Hin).
    assert (label_error m ev key = Some e) as He by by apply label_error_hard.
    congruence.
  - exists key', e'. split.
    + apply label_error_hard in Hkey as [? ?]. split_and!; [|done..].
      rewrite Hk. apply elem_of_app. right. apply elem_of_cons. by left.
    + unfold labelValues. rewrite Hk. by apply labelValues_loop_err.
Qed.

(** Without one, it returns one value per label name. *)
Lemma labelValues_soft m ev :
  (∀ key e, ¬ hard_label m ev key e) →
  labelValues m ev = (label_value m ev <$> labelKeys m, None).
Proof.
  intros Hno. unfold labelValues. apply labelValues_loop_ok.
  apply Forall_forall. intros key Hin.
  destruct (label_error m ev key) as [e|] eqn:He; [|done].
  apply label_error_hard in He as [? ?]. by destruct (Hno key e).
Qed.

(** C8. [Metric.scan], for every record, path and destination: when
    [ScanTree] succeeds the value is stored and no error returned; when
    it fails with a message that starts with [invalid path] no error is
    returned and the destination keeps its zero value; when it fails
    with any other message that error is returned. So a label whose
    path is missing resolves to the empty string; if no label meets a
    hard error, [labelValues] returns one value per label name, in the
    order of [labelKeys], the empty string standing for the missing
    ones; and if some label meets a hard error, [labelValues] returns
    such an error with no list at all, and the update of a counter, or of
    a gauge whose own value scan went through, returns that error and
    leaves the handler as it was. *)
Theorem scan_swallows_exactly_invalid_path m ev :
  (∀ (path : string) (t : target),
     match ScanTree (Record_ ev) path t with
     | inl v => scan m ev path t = (v, None)
     | inr msg =>
         if HasPrefix msg "invalid path"
         then scan m ev path t = (zero t, None)
         else scan m ev path t = (zero t, Some msg)
     end) ∧
  (∀ key msg : string,
     ScanTree (Record_ ev) (Labels_at m key) PString = inr msg →
     HasPrefix msg "invalid path" = true →
     label_value m ev key = "" ∧ label_error m ev key = None) ∧
  ((∀ key e, ¬ hard_label m ev key e) →
   labelValues m ev =
     ((λ key, match ScanTree (Record_ ev) (Labels_at m key) PString with
              | inl s => s
              | inr _ => ""
              end) <$> labelKeys m, None)) ∧
  (∀ key e : string,
     hard_label m ev key e →
     ∃ key' e',
       hard_label m ev key' e' ∧
       labelValues m ev = ([], Some e') ∧
       (∀ c, Counter_Metric c = m → Counter_HandleEvent c ev = (c, Some e')) ∧
       (∀ g, Gauge_Metric g = m →
             (scan m ev (Value m) PFloat64).2 = None →
             Gauge_HandleEvent g ev = (g, Some e'))).
Proof.
  split_and!.
  - intros path t. unfold scan.
    destruct (ScanTree (Record_ ev) path t) as [v|msg]; [done|].
    by destruct (HasPrefix msg "invalid path").
  - intros key msg Hs Hp. unfold label_value, label_error.
    by rewrite (scan_soft _ _ _ PString msg Hs Hp).
  - intros Hno. rewrite (labelValues_soft m ev Hno). f_equal.
    apply list_fmap_ext. intros i key _. apply label_value_resolved.
  - intros key e Hhard.
    destruct (labelValues_hard m ev key e Hhard) as (key' & e' & Hh' & El).
    exists key', e'. split_and!; [done|done| |].
    + intros c <-. by apply (Counter_HandleEvent_label_err c ev []).
    + intros g <- Hv.
      destruct (scan (Gauge_Metric g) ev (Value (Gauge_Metric g)) PFloat64)
        as [v err] eqn:Es.
      simpl in Hv. subst err.
      by apply (Gauge_HandleEvent_label_err g ev v []).
Qed.

(** C9, as the code has it. Every hard error that [Metric.scan] meets
    (on the value path of a gauge or of a counter in mode [value], or on
    a label path) and the validation error of a negative counter value
    is returned by [HandleEvent], and every error [HandleEvent] returns
    is logged by [Encode]. In the counting modes other than [value] the
    error of the untyped scan of the value path, soft or hard, is the
    answer of the presence test: it is never returned. *)
Theorem hard_errors_are_returned_and_logged ev :
  (∀ g (e : string),
     ScanTree (Record_ ev) (Value (Gauge_Metric g)) PFloat64 = inr e →
     HasPrefix e "invalid path" = false →
     (HandleEvent (HGauge g) ev).2 = Some e) ∧
  (∀ g (key e : string),
     (scan (Gauge_Metric g) ev (Value (Gauge_Metric g)) PFloat64).2 = None →
     hard_label (Gauge_Metric g) ev key e →
     ∃ key' e', hard_label (Gauge_Metric g) ev key' e' ∧
                (HandleEvent (HGauge g) ev).2 = Some e') ∧
  (∀ c (key e : string),
     hard_label (Counter_Metric c) ev key e →
     ∃ key' e', hard_label (Counter_Metric c) ev key' e' ∧
                (HandleEvent (HCounter c) ev).2 = Some e') ∧
  (∀ c lvals (e : string),
     labelValues (Counter_Metric c) ev = (lvals, None) →
     Value (Counter_Metric c) ≠ "" →
     CountMode (Counter_Metric c) = "value" →
     ScanTree (Record_ ev) (Value (Counter_Metric c)) PFloat64 = inr e →
     HasPrefix e "invalid path" = false →
     (HandleEvent (HCounter c) ev).2 = Some e) ∧
  (∀ c lvals (v : float),
     labelValues (Counter_Metric c) ev = (lvals, None) →
     Value (Counter_Metric c) ≠ "" →
     CountMode (Counter_Metric c) = "value" →
     ScanTree (Record_ ev) (Value (Counter_Metric c)) PFloat64 = inl v →
     (v <? 0)%float = true →
     (HandleEvent (HCounter c) ev).2 = Some "Counter value must be >=0") ∧
  (∀ p h (e : string),
     h ∈ handlers p → (HandleEvent h ev).2 = Some e →
     e ∈ Log (Encode p ev).1) ∧
  (∀ c lvals,
     labelValues (Counter_Metric c) ev = (lvals, None) →
     Value (Counter_Metric c) ≠ "" →
     CountMode (Counter_Metric c) ≠ "value" →
     (HandleEvent (HCounter c) ev).2 = None).
Proof.
  split_and!.
  - intros g e Hs Hp. simpl.
    by rewrite (Gauge_HandleEvent_value_err g ev 0%float e)
      by by apply (scan_hard _ _ _ PFloat64).
  - intros g key e Hv Hhard.
    destruct (labelValues_hard _ ev key e Hhard) as (key' & e' & Hh' & El).
    exists key', e'. split; [done|]. simpl.
    destruct (scan (Gauge_Metric g) ev (Value (Gauge_Metric g)) PFloat64)
      as [v err] eqn:Es.
    simpl in Hv. subst err.
    by rewrite (Gauge_HandleEvent_label_err g ev v [] e').
  - intros c key e Hhard.
    destruct (labelValues_hard _ ev key e Hhard) as (key' & e' & Hh' & El).
    exists key', e'. split; [done|]. simpl.
    by rewrite (Counter_HandleEvent_label_err c ev [] e').
  - intros c lvals e El Hv Hm Hs Hp. simpl.
    by rewrite (Counter_HandleEvent_value_err c ev lvals 0%float e)
      by (try done; by apply (scan_hard _ _ _ PFloat64)).
  - intros c lvals v El Hv Hm Hs Hneg. simpl.
    by rewrite (Counter_HandleEvent_negative c ev lvals v)
      by (try done; by apply scan_inl).
  - intros p h e Hin He. rewrite Encode_Log. apply elem_of_app. right.
    apply list_elem_of_omap. by exists h.
  - intros c lvals El Hv Hm. simpl.
    by rewrite (Counter_HandleEvent_presence c ev lvals).
Qed.

(** ** The counting modes over a stream *)

Lemma hits_cons m L (present : bool) ev (evs : list Event) :
  hits m L present (ev :: evs) =
    (if hit m L present ev then 1 else 0) + hits m L present evs.
Proof.
  unfold hits. rewrite filter_cons.
  destruct (hit m L present ev); by simpl.
Qed.

(** One event, seen from one label combination. *)
Lemma Counter_presence_step c ev lvals L :
  labelValues (Counter_Metric c) ev = (lvals, None) →
  Value (Counter_Metric c) ≠ "" →
  CountMode (Counter_Metric c) ≠ "value" →
  prometheus.sample (CounterVec (Counter_HandleEvent c ev).1) L =
    if (bool_decide (CountMode (Counter_Metric c) = "exist")
          && found (Counter_Metric c) ev
        || bool_decide (CountMode (Counter_Metric c) = "non_exist")
             && negb (found (Counter_Metric c) ev))
       && bool_decide (lvals = L)
    then plus_one (prometheus.sample (CounterVec c) L)
    else prometheus.sample (CounterVec c) L.
Proof.
  intros El Hv Hm.
  rewrite (Counter_HandleEvent_presence c ev lvals El Hv Hm). simpl.
  destruct (_ || _); simpl.
  - rewrite sample_insert.
    destruct (decide (lvals = L)) as [->|Hne].
    + by rewrite bool_decide_eq_true_2.
    + by rewrite bool_decide_eq_false_2.
  - apply sample_WithLabelValues.
Qed.

Lemma Counter_run_Metric c (evs : list Event) :
  Counter_Metric (Counter_run c evs) = Counter_Metric c.
Proof.
  revert c. induction evs as [|ev evs IH]; intros c; [done|].
  simpl. fold (Counter_run (Counter_HandleEvent c ev).1 evs).
  by rewrite IH, Counter_HandleEvent_Metric.
Qed.

(** A counter in mode [exist] ([present = true]) or [non_exist]
    ([present = false]) has, after a stream, added one to each series
    once per event of that series on which the test answered
    [present]. *)
Lemma Counter_run_presence c (present : bool) (evs : list Event) L :
  Value (Counter_Metric c) ≠ "" →
  CountMode (Counter_Metric c) = (if present then "exist" else "non_exist") →
  Forall (λ ev, (labelValues (Counter_Metric c) ev).2 = None) evs →
  prometheus.sample (CounterVec (Counter_run c evs)) L =
    Nat.iter (hits (Counter_Metric c) L present evs) plus_one
      (prometheus.sample (CounterVec c) L).
Proof.
  intros Hv Hm Hok. revert c Hv Hm Hok.
  induction evs as [|ev evs IH]; intros c Hv Hm Hok; [done|].
  apply Forall_cons in Hok as [Hev Hok].
  simpl. fold (Counter_run (Counter_HandleEvent c ev).1 evs).
  pose proof (Counter_HandleEvent_Metric c ev) as HM.
  rewrite IH; rewrite HM; try done.
  rewrite hits_cons.
  destruct (labelValues (Counter_Metric c) ev) as [lvals err] eqn:El.
  simpl in Hev. subst err.
  rewrite (Counter_presence_step c ev lvals L El Hv)
    by (rewrite Hm; by destruct present).
  unfold hit. rewrite El, Hm. simpl.
  destruct present, (found (Counter_Metric c) ev); simpl;
    case_bool_decide; simpl; try done; apply Nat.iter_swap.
Qed.

(** The series of a stream partition its events. *)
Lemma sum_list_indicator (Ls : list (list string)) (x : list string) :
  NoDup Ls → x ∈ Ls →
  sum_list ((λ L, if bool_decide (x = L) then 1 else 0) <$> Ls) = 1.
Proof.
  induction 1 as [|L Ls Hnin Hnd IH]; intros Hin.
  - by apply elem_of_nil in Hin.
  - simpl. case_bool_decide as Hx.
    + subst L. f_equal. clear IH Hin.
      induction Ls as [|L Ls IH]; [done|]. simpl.
      apply not_elem_of_cons in Hnin as [Hne Hnin].
      apply NoDup_cons in Hnd as [_ Hnd].
      rewrite bool_decide_eq_false_2 by done. simpl. by apply IH.
    + apply elem_of_cons in Hin as [Hin|Hin]; [done|]. by apply IH.
Qed.

Lemma sum_list_zero {A} (l : list A) : sum_list ((λ _, 0) <$> l) = 0.
Proof. induction l as [|a l IH]; [done|]. by simpl. Qed.

Lemma sum_list_fmap_add {A} (f g : A → nat) (l : list A) :
  sum_list ((λ a, f a + g a) <$> l) =
    sum_list (f <$> l) + sum_list (g <$> l).
Proof.
  induction l as [|a l IH]; [done|].
  rewrite !fmap_cons. simpl. rewrite IH. lia.
Qed.

Lemma hits_sum m (present : bool) (evs : list Event) (Ls : list (list string)) :
  NoDup Ls →
  (∀ ev, ev ∈ evs → (labelValues m ev).1 ∈ Ls) →
  sum_list ((λ L, hits m L present evs) <$> Ls) =
    length (filter (λ ev, found m ev = present) evs).
Proof.
  intros Hnd. induction evs as [|ev evs IH]; intros Hin.
  - unfold hits. simpl. apply sum_list_zero.
  - assert ((λ L, hits m L present (ev :: evs)) <$> Ls =
            (λ L, (if hit m L present ev then 1 else 0)
                  + hits m L present evs) <$> Ls) as ->
      by (apply list_fmap_ext; intros; apply hits_cons).
    rewrite sum_list_fmap_add, IH
      by (intros ev' Hev'; apply Hin, elem_of_cons; by right).
    rewrite filter_cons. unfold hit.
    destruct (decide (found m ev = present)) as [Hf|Hf].
    + assert ((λ L, if bool_decide ((labelValues m ev).1 = L)
                       && bool_decide (found m ev = present)
                    then 1 else 0) <$> Ls =
              (λ L, if bool_decide ((labelValues m ev).1 = L)
                    then 1 else 0) <$> Ls) as ->.
      { apply list_fmap_ext. intros i L _.
        by rewrite (bool_decide_eq_true_2 _ Hf), andb_true_r. }
      rewrite sum_list_indicator; [done|done|].
      apply Hin, elem_of_cons. by left.
    + assert ((λ L, if bool_decide ((labelValues m ev).1 = L)
                       && bool_decide (found m ev = present)
                    then 1 else 0) <$> Ls =
              (λ _, 0) <$> Ls) as ->.
      { apply list_fmap_ext. intros i L _.
        by rewrite (bool_decide_eq_false_2 _ Hf), andb_false_r. }
      by rewrite sum_list_zero.
Qed.

Lemma found_split m (evs : list Event) :
  length (filter (λ ev, found m ev = false) evs) =
    length evs - length (filter (λ ev, found m ev = true) evs).
Proof.
  induction evs as [|ev evs IH]; [done|].
  rewrite !filter_cons.
  pose proof (length_filter (λ ev, found m ev = true) evs) as Hle.
  destruct (found m ev); simpl.
  - apply IH.
  - rewrite IH. lia.
Qed.

Lemma hits_ext m m' L (present : bool) (evs : list Event) :
  Value m' = Value m → Labels m' = Labels m → labelKeys m' = labelKeys m →
  hits m' L present evs = hits m L present evs.
Proof.
  intros HV HL HK. unfold hits. f_equal. apply list_filter_iff.
  intros ev. unfold hit, found.
  by rewrite (labelValues_ext m m' ev HL HK), HV.
Qed.

(** C7. Two counters over one definition with a value path, one in
    mode [exist] and one in mode [non_exist], fed the same stream of [N]
    events whose labels all resolve, the presence test succeeding on [M]
    of them. For every label combination [L], the [exist] counter has
    applied to the series of [L] one increment per event of [L] on which
    the test succeeded, and the [non_exist] counter one per event of [L]
    on which it failed. Over the series of the stream these numbers of
    increments add up to [M] for the [exist] counter and to [N - M] for
    the [non_exist] counter; when the whole stream falls on one series,
    that series gets [M] and [N - M] increments. *)
Theorem exist_and_non_exist_are_complementary cE cN (evs : list Event) :
  Value (Counter_Metric cE) ≠ "" →
  CountMode (Counter_Metric cE) = "exist" →
  CountMode (Counter_Metric cN) = "non_exist" →
  Value (Counter_Metric cN) = Value (Counter_Metric cE) →
  Labels (Counter_Metric cN) = Labels (Counter_Metric cE) →
  labelKeys (Counter_Metric cN) = labelKeys (Counter_Metric cE) →
  Forall (λ ev, (labelValues (Counter_Metric cE) ev).2 = None) evs →
  let m := Counter_Metric cE in
  let N := length evs in
  let M := length (filter (λ ev, found m ev = true) evs) in
  (∀ L,
     prometheus.sample (CounterVec (Counter_run cE evs)) L =
       Nat.iter (hits m L true evs) plus_one
         (prometheus.sample (CounterVec cE) L)) ∧
  (∀ L,
     prometheus.sample (CounterVec (Counter_run cN evs)) L =
       Nat.iter (hits m L false evs) plus_one
         (prometheus.sample (CounterVec cN) L)) ∧
  (∀ Ls : list (list string),
     NoDup Ls →
     (∀ ev, ev ∈ evs → (labelValues m ev).1 ∈ Ls) →
     sum_list ((λ L, hits m L true evs) <$> Ls) = M ∧
     sum_list ((λ L, hits m L false evs) <$> Ls) = N - M) ∧
  (∀ L,
     (∀ ev, ev ∈ evs → (labelValues m ev).1 = L) →
     hits m L true evs = M ∧ hits m L false evs = N - M).
Proof.
  intros Hv HmE HmN HV HL HK Hok m N M. subst m N M.
  assert (Hsum : ∀ Ls : list (list string),
    NoDup Ls →
    (∀ ev, ev ∈ evs → (labelValues (Counter_Metric cE) ev).1 ∈ Ls) →
    sum_list ((λ L, hits (Counter_Metric cE) L true evs) <$> Ls) =
      length (filter (λ ev, found (Counter_Metric cE) ev = true) evs) ∧
    sum_list ((λ L, hits (Counter_Metric cE) L false evs) <$> Ls) =
      length evs
      - length (filter (λ ev, found (Counter_Metric cE) ev = true) evs)).
  { intros Ls Hnd Hin. split.
    - by apply hits_sum.
    - rewrite <- found_split. by apply hits_sum. }
  split_and!.
  - intros L. by apply (Counter_run_presence cE true).
  - intros L.
    rewrite <- (hits_ext _ (Counter_Metric cN) L false evs HV HL HK).
    apply (Counter_run_presence cN false); [by rewrite HV|done|].
    eapply Forall_impl; [exact Hok|]. intros ev Hev. simpl in *.
    by rewrite (labelValues_ext _ (Counter_Metric cN) ev HL HK).
  - exact Hsum.
  - intros L Hall.
    destruct (Hsum [L]) as [H1 H2].
    + apply NoDup_singleton.
    + intros ev Hev. apply list_elem_of_singleton. by apply Hall.
    + simpl in H1, H2. rewrite Nat.add_0_r in H1, H2. by split.
Qed.

End Properties.

(** * The properties on concrete events *)

Section Concrete.

Import Sample.

(** Closes a decidable goal about concrete data by evaluation. *)
Ltac by_evaluation := apply (bool_decide_unpack _); vm_compute; exact I.

Lemma metric_keys (type value mode : string) (labels : list (string * string))
    (key : string) :
  key ∈ labels.*1 ↔ is_Some (Labels (metric type value mode labels) !! key).
Proof.
  simpl. rewrite <- elem_of_dom, dom_list_to_map_L. by rewrite elem_of_list_to_set.
Qed.

Lemma labelKeys_sorted_once_and_order_witness :
  labelKeys
    (New (metric "counter" "" "" [("host", "/host"); ("app", "/app")])
         "requests" ["host"; "app"] fresh).1.1
  = ["app"; "host"].
Proof.
  pose (m := metric "counter" "" "" [("host", "/host"); ("app", "/app")]).
  assert (Hnd : NoDup ["host"; "app"]) by by_evaluation.
  destruct (labelKeys_sorted_once_and_order m "requests" ["host"; "app"] fresh
              eq_refl Hnd
              (metric_keys "counter" "" "" [("host", "/host"); ("app", "/app")]))
    as [(_ & _ & _ & Huniq) _].
  symmetry. apply Huniq.
  - by_evaluation.
  - by_evaluation.
  - intros key. unfold m. rewrite <- metric_keys.
    simpl. rewrite !elem_of_cons. tauto.
Defined.

(** A gauge on [/cpu/load]: 3.5, then 1 on the same host. *)
Lemma Gauge_sets_resolved_value_witness :
  GaugeVec (Gauge_HandleEvent (gauge "/cpu/load") (load 3.5)).1 !! ["web1"]
    = Some 3.5%float ∧
  GaugeVec
    (Gauge_HandleEvent (Gauge_HandleEvent (gauge "/cpu/load") (load 3.5)).1
       (load 1)).1 !! ["web1"]
    = Some 1%float.
Proof.
  destruct (Gauge_sets_resolved_value (gauge "/cpu/load") (load 3.5)
              3.5%float ["web1"] eq_refl eq_refl)
    as (_ & _ & Hfirst & _ & Hsecond).
  split; [exact Hfirst|].
  destruct (Hsecond (load 1) 1%float ["web1"] eq_refl eq_refl)
    as (_ & Hvalue & _).
  exact Hvalue.
Defined.

(** A counter in mode [value] on [/n], on an event with [n = -1]. *)
Lemma Counter_value_mode_witness :
  (Counter_HandleEvent (counter "/n" "value") (field (Num (-1)))).2
    = Some "Counter value must be >=0" ∧
  (∀ L, prometheus.sample
          (CounterVec
             (Counter_HandleEvent (counter "/n" "value") (field (Num (-1)))).1) L
        = prometheus.sample (CounterVec (counter "/n" "value")) L).
Proof.
  assert (Hv : Value (Counter_Metric (counter "/n" "value")) ≠ "") by done.
  destruct (Counter_value_mode (counter "/n" "value") (field (Num (-1)))
              (-1)%float Hv eq_refl eq_refl) as [Hneg _].
  destruct (Hneg eq_refl) as (_ & Herr & Hsame & _).
  split; [|exact Hsame].
  by destruct (Herr ["web1"] eq_refl) as [-> _].
Defined.

(** A counter without a value path, in mode [non_exist], on an event
    that holds no more than the host. *)
Lemma Counter_empty_value_counts_events_witness :
  CounterVec (Counter_HandleEvent (counter "" "non_exist") bare).1 !! ["web1"]
    = Some 1%float.
Proof.
  destruct (Counter_empty_value_counts_events (counter "" "non_exist") bare
              ["web1"] eq_refl eq_refl) as (_ & -> & _).
  apply lookup_insert_eq.
Defined.

(** A counter in mode [exist] on [/n]: a field holding [false] counts. *)
Lemma Counter_exist_mode_witness :
  CounterVec
    (Counter_HandleEvent (counter "/n" "exist") (field (Bool false))).1
    !! ["web1"] = Some 1%float ∧
  (Counter_HandleEvent (counter "/n" "exist") bare).2 = None.
Proof.
  assert (Hv : Value (Counter_Metric (counter "/n" "exist")) ≠ "") by done.
  split.
  - destruct (Counter_exist_mode (counter "/n" "exist") (field (Bool false))
                ["web1"] Hv eq_refl eq_refl) as (_ & Hfound & _).
    destruct (Hfound (Some (Bool false)) eq_refl) as [-> _].
    apply lookup_insert_eq.
  - by destruct (Counter_exist_mode (counter "/n" "exist") bare
                   ["web1"] Hv eq_refl eq_refl) as (-> & _).
Defined.

(** A gauge on [/cpu/load], on an event without that path. *)
Lemma Gauge_absent_value_sets_zero_witness :
  ScanTree (Record_ bare) "/cpu/load" PFloat64 = inr "invalid path: cpu" ∧
  GaugeVec (Gauge_HandleEvent (gauge "/cpu/load") bare).1 !! ["web1"]
    = Some 0%float.
Proof.
  split; [reflexivity|].
  by destruct (Gauge_absent_value_sets_zero (gauge "/cpu/load") bare
                 "invalid path: cpu" ["web1"] eq_refl eq_refl eq_refl)
    as [_ ->].
Defined.

(** Three events, [n] present in two of them, on the one series of
    host [web1]. *)
Lemma exist_and_non_exist_are_complementary_witness :
  let evs := [field (Num 0); bare; field (Str "x")] in
  prometheus.sample (CounterVec (Counter_run (counter "/n" "exist") evs))
    ["web1"] = 2%float ∧
  prometheus.sample (CounterVec (Counter_run (counter "/n" "non_exist") evs))
    ["web1"] = 1%float.
Proof.
  intros evs.
  assert (Hv : Value (Counter_Metric (counter "/n" "exist")) ≠ "") by done.
  assert (Hok : Forall
    (λ ev, (labelValues (Counter_Metric (counter "/n" "exist")) ev).2 = None)
    evs) by (by repeat constructor).
  destruct (exist_and_non_exist_are_complementary
              (counter "/n" "exist") (counter "/n" "non_exist") evs
              Hv eq_refl eq_refl eq_refl eq_refl eq_refl Hok)
    as (HE & HN & _ & Hone).
  destruct (Hone ["web1"]) as [HM HNM].
  { intros ev Hev. repeat (apply elem_of_cons in Hev as [->|Hev]; [done|]).
    by apply elem_of_nil in Hev. }
  split.
  - rewrite HE, HM. reflexivity.
  - rewrite HN, HNM. reflexivity.
Defined.

(** Against C9 as the specification words it: a counter in mode [exist] on
    [/host/name], on an event where [host] is a string. The scan of the
    value path fails with an error that is not about a missing path;
    [HandleEvent] returns nil all the same, and [Encode] logs
    nothing. *)
Lemma exist_mode_drops_a_hard_error :
  ∃ msg : string,
    ScanTree (Record_ bare) (Value (Counter_Metric (counter "/host/name" "exist")))
      PInterface = inr msg ∧
    HasPrefix msg "invalid path" = false ∧
    (HandleEvent (HCounter (counter "/host/name" "exist")) bare).2 = None ∧
    Log (Encode {| handlers := [HCounter (counter "/host/name" "exist")];
                   Log := [] |} bare).1 = [].
Proof.
  exists "interface conversion: interface {} is not map[string]interface {}".
  by split_and!.
Qed.

(** Dispatch to three handlers, the second of which fails on the event
    (its label path steps into a string): the first and the third are
    updated, the error is logged, and [Encode] returns nil. *)
Example Encode_three_handlers :
  let failing :=
    {| Gauge_Metric :=
         New_prepare (metric "gauge" "/cpu/load" "" [("host", "/host/name")])
           ["host"];
       GaugeVec := prometheus.NewVec |} in
  let p := {| handlers := [HGauge (gauge "/cpu/load"); HGauge failing;
                           HCounter (counter "" "value")];
              Log := [] |} in
  let p' := (Encode p (load 3.5)).1 in
  (Handler_Vec <$> handlers p') !! 0 = Some {[ ["web1"] := 3.5%float ]} ∧
  (Handler_Vec <$> handlers p') !! 1 = Some ∅ ∧
  (Handler_Vec <$> handlers p') !! 2 = Some {[ ["web1"] := 1%float ]} ∧
  Log p' = ["interface conversion: interface {} is not map[string]interface {}"] ∧
  (Encode p (load 3.5)).2.2 = None.
Proof. vm_compute. by split_and!. Qed.

End Concrete.

(** * Further properties of the code *)

Section Further.

Context {scanner : Scanner} {registerer : Registerer}.

Implicit Types (m : Metric) (ev : Event) (h : Handler) (g : Gauge)
  (c : Counter) (p : OutPrometheus) (L lvals : list string).

(** ** [Metric.New], [newGauge], [newCounter] *)

(** [Metric.New] in closed form. *)
Lemma New_outcome m (name : string) (order : list string) (reg : Registry) :
  New m name order reg =
    let m' := New_prepare m order in
    let r := Register name (Help m) (labelKeys m') reg in
    if decide (known_type (Type_ m)) then
      match r.1 with
      | None => (m', (Some (built (name, m, order)), None), r.2)
      | Some e => (m', (None, Some e), r.2)
      end
    else (m', (None, Some ("Unknown metric type: " +:+ Type_ m)), reg).
Proof.
  unfold New, newGauge, newCounter, built, known_type. simpl.
  destruct (Register name (Help m) _ reg) as [[e|] reg']; simpl;
    destruct (decide (Type_ m = "gauge")) as [Hg|Hg];
    destruct (decide (Type_ m = "counter")) as [Hc|Hc];
    try (rewrite decide_True by auto); try (rewrite decide_False by tauto);
    done.
Qed.


(** X4. [Metric.New] appends the keys of the label map to whatever
    [labelKeys] already holds and sorts the whole: the result is sorted
    and is a rearrangement of the old names followed by the keys. The
    other fields of the receiver are kept, the counting mode being
    replaced by [value] only when it was empty. So a second call on the
    same receiver, with a definition that has labels, leaves every label
    name twice. *)
Theorem New_appends_label_names m (name : string) (order : list string)
    (reg : Registry) :
  let m' := (New m name order reg).1.1 in
  Sorted String.le (labelKeys m') ∧
  labelKeys m' ≡ₚ labelKeys m ++ order ∧
  CountMode m' = (if decide (CountMode m = "") then "value" else CountMode m) ∧
  CountMode m' ≠ "" ∧
  (Type_ m', Help m', Value m', Labels m') = (Type_ m, Help m, Value m, Labels m) ∧
  (∀ (name2 : string) (order2 : list string) (reg2 : Registry),
     let m'' := (New m' name2 order2 reg2).1.1 in
     labelKeys m'' ≡ₚ labelKeys m ++ order ++ order2 ∧
     CountMode m'' = CountMode m' ∧
     (order ≠ [] → order2 ≡ₚ order → ¬ NoDup (labelKeys m''))).
Proof.
  intros m'. subst m'. rewrite New_receiver. simpl.
  split_and!.
  - apply sort_Strings_Sorted.
  - apply sort_Strings_Permutation.
  - done.
  - by case_decide.
  - done.
  - intros name2 order2 reg2. rewrite New_receiver. simpl.
    assert (Hperm : sort_Strings (sort_Strings (labelKeys m ++ order) ++ order2)
                    ≡ₚ labelKeys m ++ order ++ order2).
    { rewrite sort_Strings_Permutation, sort_Strings_Permutation.
      by rewrite <- app_assoc. }
    split_and!.
    + done.
    + repeat case_decide; done.
    + intros Hne Hp Hnd. rewrite Hperm, Hp in Hnd.
      destruct order as [|key order']; [done|].
      apply NoDup_app in Hnd as (_ & _ & Hnd).
      apply NoDup_app in Hnd as (_ & Hdis & _).
      apply (Hdis key); apply elem_of_cons; by left.
Qed.

(** ** Decoding and construction together *)

(** X1. [MetricType.UnmarshalText] accepts exactly the texts [gauge]
    and [counter]: it then stores the text and returns nil; on any other
    text it leaves the receiver as it was and returns an error that
    quotes the text. A type it accepted is never refused by
    [Metric.New]: construction then yields a handler, or fails with the
    error of the registration. *)
Theorem decoded_type_is_never_refused (t0 : string) (b : list Byte.byte) :
  let s := String.string_of_list_byte b in
  let t := (MetricType_UnmarshalText t0 b).1 in
  let err := (MetricType_UnmarshalText t0 b).2 in
  (err = None ↔ s = "gauge" ∨ s = "counter") ∧
  (err = None → t = s) ∧
  (err ≠ None → t = t0 ∧ err = Some ("Unknown metric type: " +:+ s)) ∧
  (err = None →
   ∀ m (name : string) (order : list string) (reg : Registry),
     Type_ m = t →
     let res := (New m name order reg).1.2 in
     res = (Some (built (name, m, order)), None) ∨
     (res.1 = None ∧ is_Some res.2 ∧
      res.2 = (Register name (Help m) (labelKeys (New_prepare m order)) reg).1)).
Proof.
  intros s t err. subst s t err. unfold MetricType_UnmarshalText. simpl.
  destruct (decide (_ ∨ _)) as [Hs|Hs]; simpl.
  - split_and!; try done.
    intros _ m name order reg Ht. rewrite New_outcome. simpl.
    rewrite decide_True by (unfold known_type; by rewrite Ht).
    destruct (Register name (Help m) _ reg) as [[e|] reg']; simpl.
    + right. by split_and!.
    + by left.
  - split_and!; try done.
Qed.

(** X2. [CountMode.UnmarshalText] accepts exactly [value], [exist] and
    [non_exist], and otherwise leaves the receiver as it was and returns
    an error that quotes the text. A definition whose counting mode was
    accepted, or never set, comes out of [Metric.New] in one of the
    three modes, the unset one as [value]. *)
Theorem decoded_count_mode_is_one_of_three (m0 : string) (b : list Byte.byte) :
  let s := String.string_of_list_byte b in
  let mode := (CountMode_UnmarshalText m0 b).1 in
  let err := (CountMode_UnmarshalText m0 b).2 in
  (err = None ↔ s = "value" ∨ s = "exist" ∨ s = "non_exist") ∧
  (err = None → mode = s) ∧
  (err ≠ None → mode = m0 ∧ err = Some ("Unknown count mode: " +:+ s)) ∧
  (∀ m (name : string) (order : list string) (reg : Registry),
     CountMode m = "" ∨ (err = None ∧ CountMode m = mode) →
     let m' := (New m name order reg).1.1 in
     (CountMode m = "" → CountMode m' = "value") ∧
     (CountMode m' = "value" ∨ CountMode m' = "exist"
      ∨ CountMode m' = "non_exist")).
Proof.
  intros s mode err. subst s mode err. unfold CountMode_UnmarshalText. simpl.
  assert (Hunset : ∀ m (name : string) (order : list string) (reg : Registry),
    CountMode m = "" → CountMode (New m name order reg).1.1 = "value").
  { intros m name order reg Hm. rewrite New_receiver. simpl. by rewrite Hm. }
  destruct (decide (_ ∨ _)) as [Hs|Hs]; simpl.
  - split_and!; try done.
    intros m name order reg [Hm|[_ Hm]].
    + split; [auto|]. left. by apply Hunset.
    + split; [auto|]. rewrite New_receiver. simpl. rewrite Hm.
      destruct Hs as [Hs|[Hs|Hs]]; rewrite Hs; simpl; auto.
  - split_and!; try done.
    intros m name order reg [Hm|[? _]]; [|done].
    split; [auto|]. left. by apply Hunset.
Qed.

(** ** Which errors [labelValues] and the updates return *)

(** [labelValues] returns either the values of all the labels and no
    error, or no value and an error. *)
Lemma labelValues_cases m ev :
  (labelValues m ev = (label_value m ev <$> labelKeys m, None) ∧
   Forall (λ key, label_error m ev key = None) (labelKeys m)) ∨
  (∃ e, labelValues m ev = ([], Some e)).
Proof.
  unfold labelValues.
  destruct (label_errors_cases m ev (labelKeys m))
    as [Hok|(pre & key & post & e & Hk & Hpre & Hkey)].
  - left. split; [|done]. by rewrite (labelValues_loop_ok _ _ _ _ Hok).
  - right. exists e. rewrite Hk. by apply labelValues_loop_err.
Qed.

(** X5. [labelValues] reports the first hard error in the order of
    [labelKeys], that is, the one of the smallest label name that meets
    one: it returns the error [e] exactly when some label name scans to
    the hard error [e] and every name before it in [labelKeys] scans
    without one. With the error comes no list; without an error, the
    list has one value per label name. *)
Theorem labelValues_reports_first_hard_error m ev (e : string) :
  ((labelValues m ev).2 = Some e ↔
   ∃ (pre post : list string) (key : string),
     labelKeys m = pre ++ key :: post ∧
     (∀ k, k ∈ pre → ∀ e', ¬ hard_label m ev k e') ∧
     ScanTree (Record_ ev) (Labels_at m key) PString = inr e ∧
     HasPrefix e "invalid path" = false) ∧
  (is_Some (labelValues m ev).2 → (labelValues m ev).1 = []) ∧
  ((labelValues m ev).2 = None →
   length (labelValues m ev).1 = length (labelKeys m)).
Proof.
  split_and!.
  - split.
    + intros He.
      destruct (labelValues m ev) as [lvals err] eqn:El. simpl in He. subst err.
      apply labelValues_Some_inv in El as (_ & pre & key & post & Hk & Hpre & Hkey).
      exists pre, post, key. apply label_error_hard in Hkey as [Hs Hp].
      split_and!; [done| |done|done].
      intros k Hin e' (_ & Hs' & Hp').
      rewrite Forall_forall in Hpre. specialize (Hpre k Hin).
      assert (label_error m ev k = Some e') by by apply label_error_hard.
      congruence.
    + intros (pre & post & key & Hk & Hpre & Hs & Hp).
      unfold labelValues. rewrite Hk.
      rewrite (labelValues_loop_err m ev pre post [] key e); [done| |].
      * apply Forall_forall. intros k Hin.
        destruct (label_error m ev k) as [e'|] eqn:He'; [|done].
        apply label_error_hard in He' as [? ?].
        destruct (Hpre k Hin e'). split_and!; [|done..].
        rewrite Hk. apply elem_of_app. by left.
      * by apply label_error_hard.
  - intros [e' He'].
    destruct (labelValues_cases m ev) as [[El _]|[e'' El]];
      rewrite El in *; done.
  - intros He.
    destruct (labelValues_cases m ev) as [[El _]|[e'' El]];
      rewrite El in *; [|done]. simpl. by rewrite length_fmap.
Qed.

(** X6. [Gauge.HandleEvent] returns an error in two cases only: the
    scan of the value path meets a hard error, which is then returned
    whatever the labels would have given, or that scan goes through and
    [labelValues] returns an error. Whenever it returns an error the
    gauge is left exactly as it was: no child is set or created. *)
Theorem Gauge_HandleEvent_errors g ev (e : string) :
  let m := Gauge_Metric g in
  ((Gauge_HandleEvent g ev).2 = Some e ↔
   (ScanTree (Record_ ev) (Value m) PFloat64 = inr e ∧
    HasPrefix e "invalid path" = false) ∨
   ((scan m ev (Value m) PFloat64).2 = None ∧ (labelValues m ev).2 = Some e)) ∧
  (is_Some (Gauge_HandleEvent g ev).2 → (Gauge_HandleEvent g ev).1 = g).
Proof.
  intros m. subst m. rewrite <- (scan_error_iff (Gauge_Metric g)).
  unfold Gauge_HandleEvent. cbv zeta.
  destruct (scan _ ev _ PFloat64) as [v [e1|]]; simpl.
  - split; [|done]. split; [by left|]. by intros [?|[? _]].
  - destruct (labelValues _ ev) as [lvals [e2|]]; simpl.
    + split; [|done]. split; [by right|]. by intros [?|[_ ?]].
    + split; [|by intros [? ?]]. split; [done|]. by intros [?|[_ ?]].
Qed.

(** X7. [Counter.HandleEvent] returns an error in three cases only:
    [labelValues] returns one, and the counter is then left exactly as
    it was; or, with a value path and in mode [value], the scan of the
    value path meets a hard error or resolves to a number below 0. In
    particular no update in mode [exist] or [non_exist], and no update
    of a counter without value path, fails once the labels resolve. *)
Theorem Counter_HandleEvent_errors c ev (e : string) :
  let m := Counter_Metric c in
  ((Counter_HandleEvent c ev).2 = Some e ↔
   (labelValues m ev).2 = Some e ∨
   ((labelValues m ev).2 = None ∧ Value m ≠ "" ∧ CountMode m = "value" ∧
    ((ScanTree (Record_ ev) (Value m) PFloat64 = inr e ∧
      HasPrefix e "invalid path" = false) ∨
     (∃ v : float,
        ScanTree (Record_ ev) (Value m) PFloat64 = inl v ∧
        (v <? 0)%float = true ∧ e = "Counter value must be >=0")))) ∧
  (is_Some (labelValues m ev).2 → (Counter_HandleEvent c ev).1 = c).
Proof.
  intros m. subst m.
  destruct (labelValues (Counter_Metric c) ev) as [lvals [e1|]] eqn:El; simpl.
  - rewrite (Counter_HandleEvent_label_err c ev lvals e1 El). simpl.
    split; [|done]. split; [by left|]. by intros [?|[? _]].
  - split; [|by intros [? ?]].
    destruct (decide (Value (Counter_Metric c) = "")) as [Hv|Hv].
    { rewrite (Counter_HandleEvent_implicit c ev lvals El Hv). simpl.
      split; [done|]. by intros [?|(_ & ? & _)]. }
    destruct (decide (CountMode (Counter_Metric c) = "value")) as [Hm|Hm].
    2:{ rewrite (Counter_HandleEvent_presence c ev lvals El Hv Hm). simpl.
        split; [done|]. by intros [?|(_ & _ & ? & _)]. }
    destruct (ScanTree (Record_ ev) (Value (Counter_Metric c)) PFloat64)
      as [v|msg] eqn:Es.
    + pose proof (scan_inl (Counter_Metric c) ev _ PFloat64 v Es) as Hs.
      destruct (v <? 0)%float eqn:Hneg.
      * rewrite (Counter_HandleEvent_negative c ev lvals v El Hv Hm Hs Hneg).
        simpl. split.
        -- intros [= <-]. right. split_and!; try done. right. by exists v.
        -- intros [?|(_ & _ & _ & [[? _]|(v' & ? & _ & ->)])]; done.
      * rewrite (Counter_HandleEvent_add c ev lvals v El Hv Hm Hs Hneg).
        simpl. split; [done|].
        intros [?|(_ & _ & _ & [[? _]|(v' & [= <-] & ? & _)])]; try done.
        congruence.
    + destruct (HasPrefix msg "invalid path") eqn:Hp.
      * pose proof (scan_soft (Counter_Metric c) ev _ PFloat64 msg Es Hp) as Hs.
        rewrite (Counter_HandleEvent_add c ev lvals 0%float El Hv Hm Hs eq_refl).
        simpl. split; [done|].
        intros [?|(_ & _ & _ & [[[= <-] ?]|(v' & ? & _)])]; try done.
        congruence.
      * pose proof (scan_hard (Counter_Metric c) ev _ PFloat64 msg Es Hp) as Hs.
        rewrite (Counter_HandleEvent_value_err c ev lvals 0%float msg El Hv Hm Hs).
        simpl. split.
        -- intros [= <-]. right. split_and!; try done. by left.
        -- intros [?|(_ & _ & _ & [[[= <-] _]|(v' & ? & _)])]; done.
Qed.

(** ** What an update leaves alone *)

(** The three shapes of the vector after an update. *)
Lemma Gauge_HandleEvent_vec g ev :
  let lvals := (labelValues (Gauge_Metric g) ev).1 in
  GaugeVec (Gauge_HandleEvent g ev).1 = GaugeVec g ∨
  (∃ v : float,
     (Gauge_HandleEvent g ev).2 = None ∧
     GaugeVec (Gauge_HandleEvent g ev).1 = <[lvals := v]> (GaugeVec g)).
Proof.
  unfold Gauge_HandleEvent. cbv zeta.
  destruct (scan _ ev _ PFloat64) as [v [e1|]]; simpl; [by left|].
  destruct (labelValues _ ev) as [lvals [e2|]]; simpl; [by left|].
  right. exists v. by rewrite Set_WithLabelValues.
Qed.

Lemma Counter_HandleEvent_vec c ev :
  let lvals := (labelValues (Counter_Metric c) ev).1 in
  CounterVec (Counter_HandleEvent c ev).1 = CounterVec c ∨
  CounterVec (Counter_HandleEvent c ev).1
    = prometheus.WithLabelValues lvals (CounterVec c) ∨
  (∃ v : float,
     (Counter_HandleEvent c ev).2 = None ∧
     CounterVec (Counter_HandleEvent c ev).1 = <[lvals := v]> (CounterVec c)).
Proof.
  unfold Counter_HandleEvent. cbv zeta.
  destruct (labelValues _ ev) as [lvals [e1|]]; simpl; [by left|].
  destruct (decide (Value _ = "")).
  { right. right. eexists. by rewrite Inc_WithLabelValues. }
  destruct (decide (CountMode _ = "value")).
  - destruct (scan _ ev _ PFloat64) as [v [e2|]]; simpl; [by right; left|].
    destruct (v <? 0)%float; simpl; [by right; left|].
    right. right. eexists. by rewrite Add_WithLabelValues.
  - destruct (_ || _); simpl; [|by right; left].
    right. right. eexists. by rewrite Inc_WithLabelValues.
Qed.

(** X8. An update, of a gauge or of a counter, touches no child but
    the one of the label values the event resolves to, and never removes
    a child. An update that returns an error changes the value of no
    series at all: the most it leaves behind, in a counter, is the child
    of the resolved label values, created at 0. *)
Theorem HandleEvent_touches_one_child h ev :
  let h' := (HandleEvent h ev).1 in
  let lvals := (labelValues (Handler_Metric h) ev).1 in
  (∀ L, L ≠ lvals → Handler_Vec h' !! L = Handler_Vec h !! L) ∧
  (∀ L, is_Some (Handler_Vec h !! L) → is_Some (Handler_Vec h' !! L)) ∧
  (is_Some (HandleEvent h ev).2 →
   (∀ L, prometheus.sample (Handler_Vec h') L
         = prometheus.sample (Handler_Vec h) L) ∧
   Handler_Vec h ⊆ Handler_Vec h').
Proof.
  intros h' lvals. subst h' lvals.
  assert (Hshape :
    Handler_Vec (HandleEvent h ev).1 = Handler_Vec h ∨
    Handler_Vec (HandleEvent h ev).1
      = prometheus.WithLabelValues (labelValues (Handler_Metric h) ev).1
          (Handler_Vec h) ∨
    (∃ v : float,
       (HandleEvent h ev).2 = None ∧
       Handler_Vec (HandleEvent h ev).1
         = <[(labelValues (Handler_Metric h) ev).1 := v]> (Handler_Vec h))).
  { destruct h as [g|c]; simpl.
    - pose proof (Gauge_HandleEvent_vec g ev) as Hg.
      destruct (Gauge_HandleEvent g ev) as [g' err]. simpl in *.
      destruct Hg as [?|?]; auto.
    - pose proof (Counter_HandleEvent_vec c ev) as Hc.
      by destruct (Counter_HandleEvent c ev) as [c' err]. }
  destruct Hshape as [->|[->|(v & Herr & ->)]].
  - by split_and!.
  - split_and!.
    + intros L HL. by rewrite lookup_WithLabelValues_ne.
    + intros L [x Hx].
      exists x. by apply (lookup_weaken _ _ _ _ Hx), WithLabelValues_subseteq.
    + intros _. split.
      * intros L. apply sample_WithLabelValues.
      * apply WithLabelValues_subseteq.
  - split_and!.
    + intros L HL. by rewrite lookup_insert_ne.
    + intros L HL. rewrite lookup_insert_is_Some. 
      destruct (decide ((labelValues (Handler_Metric h) ev).1 = L)); auto.
    + rewrite Herr. by intros [? ?].
Qed.

(** ** The counting modes, one event at a time *)

(** X9. A counter in mode [non_exist] with a value path, on an event
    whose labels resolve to [lvals]: the update never fails; if the
    untyped scan of the value path returns an error, whatever the error
    (a missing path as well as a hard error), the child of [lvals] holds
    its former value plus 1; if the scan succeeds nothing is added. *)
Theorem Counter_non_exist_mode c ev lvals :
  Value (Counter_Metric c) ≠ "" →
  CountMode (Counter_Metric c) = "non_exist" →
  labelValues (Counter_Metric c) ev = (lvals, None) →
  let c' := (Counter_HandleEvent c ev).1 in
  (Counter_HandleEvent c ev).2 = None ∧
  (∀ msg : string,
     ScanTree (Record_ ev) (Value (Counter_Metric c)) PInterface = inr msg →
     CounterVec c' =
       <[lvals := (prometheus.sample (CounterVec c) lvals + 1)%float]>
         (CounterVec c)) ∧
  (∀ x : option Dyn,
     ScanTree (Record_ ev) (Value (Counter_Metric c)) PInterface = inl x →
     CounterVec c' = prometheus.WithLabelValues lvals (CounterVec c) ∧
     ∀ L, prometheus.sample (CounterVec c') L = prometheus.sample (CounterVec c) L).
Proof.
  intros Hv Hm El c'. subst c'.
  rewrite (Counter_HandleEvent_presence c ev lvals El Hv) by by rewrite Hm.
  rewrite Hm. simpl. unfold found.
  split_and!; [done| |].
  - by intros msg ->.
  - intros x ->. simpl. split; [done|].
    intros L. apply sample_WithLabelValues.
Qed.

(** X10. A counter in mode [value] with a value path, on an event whose
    labels resolve to [lvals] and whose value path does not scan. If the
    error starts with [invalid path] the update succeeds and adds the
    zero the destination was declared with; otherwise the update returns
    that error and adds nothing, the child of [lvals] existing
    afterwards all the same. *)
Theorem Counter_value_mode_unresolved c ev lvals (msg : string) :
  Value (Counter_Metric c) ≠ "" →
  CountMode (Counter_Metric c) = "value" →
  labelValues (Counter_Metric c) ev = (lvals, None) →
  ScanTree (Record_ ev) (Value (Counter_Metric c)) PFloat64 = inr msg →
  let c' := (Counter_HandleEvent c ev).1 in
  let err := (Counter_HandleEvent c ev).2 in
  (HasPrefix msg "invalid path" = true →
   err = None ∧
   CounterVec c' =
     <[lvals := (prometheus.sample (CounterVec c) lvals + 0)%float]>
       (CounterVec c)) ∧
  (HasPrefix msg "invalid path" = false →
   err = Some msg ∧
   CounterVec c' = prometheus.WithLabelValues lvals (CounterVec c) ∧
   is_Some (CounterVec c' !! lvals) ∧
   ∀ L, prometheus.sample (CounterVec c') L = prometheus.sample (CounterVec c) L).
Proof.
  intros Hv Hm El Es c' err. subst c' err. split; intros Hp.
  - pose proof (scan_soft (Counter_Metric c) ev _ PFloat64 msg Es Hp) as Hs.
    by rewrite (Counter_HandleEvent_add c ev lvals 0%float El Hv Hm Hs eq_refl).
  - pose proof (scan_hard (Counter_Metric c) ev _ PFloat64 msg Es Hp) as Hs.
    rewrite (Counter_HandleEvent_value_err c ev lvals 0%float msg El Hv Hm Hs).
    simpl. split_and!; [done|done| |].
    + rewrite lookup_WithLabelValues. by eexists.
    + intros L. apply sample_WithLabelValues.
Qed.

(** ** Gauges over a stream *)

Lemma Gauge_HandleEvent_write g ev :
  (Gauge_HandleEvent g ev).1 =
    match Gauge_write (Gauge_Metric g) ev with
    | Some w => {| Gauge_Metric := Gauge_Metric g;
                   GaugeVec := <[w.1 := w.2]> (GaugeVec g) |}
    | None => g
    end.
Proof.
  unfold Gauge_HandleEvent, Gauge_write. cbv zeta.
  destruct (scan _ ev _ PFloat64) as [v [e1|]]; [done|].
  destruct (labelValues _ ev) as [lvals [e2|]]; [done|].
  simpl. by rewrite Set_WithLabelValues.
Qed.

Lemma Gauge_write_labels m ev (w : list string * float) :
  Gauge_write m ev = Some w → w.1 = (labelValues m ev).1.
Proof.
  unfold Gauge_write.
  destruct (scan m ev _ PFloat64) as [v [e1|]]; [done|].
  destruct (labelValues m ev) as [lvals [e2|]]; [done|].
  by intros [= <-].
Qed.

Lemma Gauge_run_snoc g (evs : list Event) ev :
  Gauge_run g (evs ++ [ev]) = (Gauge_HandleEvent (Gauge_run g evs) ev).1.
Proof. unfold Gauge_run. by rewrite foldl_app. Qed.

Lemma Gauge_run_Metric g (evs : list Event) :
  Gauge_Metric (Gauge_run g evs) = Gauge_Metric g.
Proof.
  induction evs as [|ev evs IH] using rev_ind; [done|].
  by rewrite Gauge_run_snoc, Gauge_HandleEvent_Metric.
Qed.

(** X11. After a stream of events the child of a gauge for the label
    values [L] holds the number of the last event of the stream that was
    handled without error and resolved to [L]; if there is no such
    event, the child is as it was before the stream. Events whose update
    failed leave no trace. *)
Theorem Gauge_last_write_wins g (evs : list Event) L :
  GaugeVec (Gauge_run g evs) !! L =
    match last (filter (λ w, w.1 = L) (omap (Gauge_write (Gauge_Metric g)) evs)) with
    | Some w => Some w.2
    | None => GaugeVec g !! L
    end.
Proof.
  induction evs as [|ev evs IH] using rev_ind; [done|].
  rewrite Gauge_run_snoc, Gauge_HandleEvent_write, Gauge_run_Metric.
  rewrite omap_app, filter_app. simpl.
  destruct (Gauge_write (Gauge_Metric g) ev) as [[lv v]|]; simpl.
  - rewrite filter_cons. simpl.
    destruct (decide (lv = L)) as [->|Hne].
    + by rewrite filter_nil, last_snoc, lookup_insert_eq.
    + rewrite filter_nil, app_nil_r, lookup_insert_ne by done. apply IH.
  - rewrite filter_nil, app_nil_r. apply IH.
Qed.

(** X12. Handling the same event twice in a row leaves a gauge as
    handling it once does, and returns the same error. Two events that
    resolve to different label values can be handled in either order
    with the same gauge as the result. *)
Theorem Gauge_replay_and_reorder g ev :
  Gauge_HandleEvent (Gauge_HandleEvent g ev).1 ev = Gauge_HandleEvent g ev ∧
  ∀ ev2,
    (labelValues (Gauge_Metric g) ev).1 ≠ (labelValues (Gauge_Metric g) ev2).1 →
    Gauge_run g [ev; ev2] = Gauge_run g [ev2; ev].
Proof.
  split.
  - unfold Gauge_HandleEvent. cbv zeta.
    destruct (scan (Gauge_Metric g) ev _ PFloat64) as [v [e1|]] eqn:Es; simpl.
    { by rewrite Es. }
    destruct (labelValues (Gauge_Metric g) ev) as [lvals [e2|]] eqn:El; simpl.
    { by rewrite Es, El. }
    rewrite Es, El. simpl.
    by rewrite !Set_WithLabelValues, insert_insert_eq.
  - intros ev2 Hne. unfold Gauge_run. simpl.
    rewrite !Gauge_HandleEvent_write.
    destruct (Gauge_write (Gauge_Metric g) ev) as [w1|] eqn:E1;
      destruct (Gauge_write (Gauge_Metric g) ev2) as [w2|] eqn:E2;
      simpl; rewrite ?E1, ?E2; simpl; rewrite ?E1, ?E2; try done.
    f_equal. apply insert_insert_ne.
    by rewrite (Gauge_write_labels _ _ _ E1), (Gauge_write_labels _ _ _ E2).
Qed.

(** ** Counters that count events, over a stream *)

Lemma lookup_count_step (lv : list string) (b : bool) (vec : prometheus.Vec) L :
  count_step lv b vec !! L =
    if decide (lv = L)
    then Some (if b then plus_one (prometheus.sample vec L)
               else prometheus.sample vec L)
    else vec !! L.
Proof.
  unfold count_step. destruct b.
  - rewrite lookup_insert. by case_decide; simplify_eq.
  - case_decide; simplify_eq.
    + apply lookup_WithLabelValues.
    + by apply lookup_WithLabelValues_ne.
Qed.

Lemma count_step_comm (l1 l2 : list string) (b1 b2 : bool)
    (vec : prometheus.Vec) :
  count_step l1 b1 (count_step l2 b2 vec)
  = count_step l2 b2 (count_step l1 b1 vec).
Proof.
  apply map_eq. intros L. rewrite !lookup_count_step.
  unfold prometheus.sample. rewrite !lookup_count_step.
  destruct (decide (l1 = L)), (decide (l2 = L)); simplify_eq;
    rewrite ?decide_True by done; rewrite ?decide_False by done;
    simpl; try done.
  by destruct b1, b2.
Qed.

Lemma Counter_HandleEvent_counting c ev :
  Value (Counter_Metric c) = "" ∨ CountMode (Counter_Metric c) ≠ "value" →
  (Counter_HandleEvent c ev).1 =
    match labelValues (Counter_Metric c) ev with
    | (lvals, None) =>
        {| Counter_Metric := Counter_Metric c;
           CounterVec :=
             count_step lvals (counts (Counter_Metric c) ev) (CounterVec c) |}
    | (_, Some _) => c
    end.
Proof.
  intros Hmode.
  destruct (labelValues (Counter_Metric c) ev) as [lvals [e|]] eqn:El.
  { by rewrite (Counter_HandleEvent_label_err c ev lvals e El). }
  unfold counts, count_step, plus_one.
  destruct (decide (Value (Counter_Metric c) = "")) as [Hv|Hv].
  - rewrite (Counter_HandleEvent_implicit c ev lvals El Hv).
    by rewrite (bool_decide_eq_true_2 _ Hv).
  - destruct Hmode as [?|Hm]; [done|].
    rewrite (Counter_HandleEvent_presence c ev lvals El Hv Hm).
    by rewrite (bool_decide_eq_false_2 _ Hv).
Qed.

Lemma Counter_steps_commute c ev1 ev2 :
  Value (Counter_Metric c) = "" ∨ CountMode (Counter_Metric c) ≠ "value" →
  (Counter_HandleEvent (Counter_HandleEvent c ev1).1 ev2).1
  = (Counter_HandleEvent (Counter_HandleEvent c ev2).1 ev1).1.
Proof.
  intros Hmode.
  pose proof (Counter_HandleEvent_Metric c ev1) as HM1.
  pose proof (Counter_HandleEvent_Metric c ev2) as HM2.
  pose proof (Counter_HandleEvent_counting c ev1 Hmode) as H1.
  pose proof (Counter_HandleEvent_counting c ev2 Hmode) as H2.
  rewrite (Counter_HandleEvent_counting (Counter_HandleEvent c ev1).1 ev2)
    by by rewrite HM1.
  rewrite (Counter_HandleEvent_counting (Counter_HandleEvent c ev2).1 ev1)
    by by rewrite HM2.
  rewrite HM1, HM2.
  destruct (labelValues (Counter_Metric c) ev1) as [l1 [e1|]];
    destruct (labelValues (Counter_Metric c) ev2) as [l2 [e2|]];
    rewrite ?H1, ?H2; simpl; try done.
  f_equal. apply count_step_comm.
Qed.

(** X13. A counter that counts events (no value path, or a counting
    mode other than [value]) ends in the same state whatever the order
    in which the events of a stream reach it. *)
Theorem Counter_counting_ignores_order c (evs1 evs2 : list Event) :
  Value (Counter_Metric c) = "" ∨ CountMode (Counter_Metric c) ≠ "value" →
  evs1 ≡ₚ evs2 →
  Counter_run c evs1 = Counter_run c evs2.
Proof.
  intros Hmode Hperm. revert c Hmode.
  induction Hperm as [|ev evs1 evs2 _ IH|ev1 ev2 evs|evs1 evs2 evs3 _ IH1 _ IH2];
    intros c Hmode.
  - done.
  - simpl. apply IH. by rewrite Counter_HandleEvent_Metric.
  - simpl. by rewrite Counter_steps_commute.
  - by rewrite IH1, IH2.
Qed.

(** ** The loop of [Start] *)

Lemma Start_loop_cons (name : string) m (order : list string)
    (items : list (string * Metric * list string)) (hs : list Handler)
    (reg : Registry) :
  Start_loop ((name, m, order) :: items) hs reg =
    let r := Register name (Help m) (labelKeys (New_prepare m order)) reg in
    if decide (known_type (Type_ m)) then
      match r.1 with
      | None => Start_loop items (hs ++ [built (name, m, order)]) r.2
      | Some e => (hs, Some e, r.2)
      end
    else (hs, Some ("Unknown metric type: " +:+ Type_ m), reg).
Proof.
  simpl. rewrite New_outcome. simpl.
  case_decide; [|done].
  by destruct (Register name (Help m) _ reg) as [[e|] reg'].
Qed.

(** X14. The loop of [Start] that builds the handlers. If it ends
    without error, every metric has a known type and [p.handlers] has
    gained one handler per metric, in the order of the range, each as
    [Metric.New] builds it. If it stops on an error, the handlers of the
    metrics before the failing one have already been appended and stay;
    the error is the one of the unknown type when the failing metric has
    one. A configuration holding a metric of unknown type never gets
    through the loop. *)
Theorem Start_loop_builds_in_order
    (items : list (string * Metric * list string)) (hs : list Handler)
    (reg : Registry) :
  let res := Start_loop items hs reg in
  (res.1.2 = None →
   res.1.1 = hs ++ (built <$> items) ∧
   Forall (λ item, known_type (Type_ item.1.2)) items) ∧
  (∀ e : string,
     res.1.2 = Some e →
     ∃ pre item post,
       items = pre ++ item :: post ∧
       res.1.1 = hs ++ (built <$> pre) ∧
       Forall (λ item, known_type (Type_ item.1.2)) pre ∧
       (¬ known_type (Type_ item.1.2) →
        e = "Unknown metric type: " +:+ Type_ item.1.2)) ∧
  (Exists (λ item, ¬ known_type (Type_ item.1.2)) items → is_Some res.1.2).
Proof.
  revert hs reg.
  induction items as [|[[name m] order] items IH]; intros hs reg res; subst res.
  - simpl. split_and!.
    + intros _. by rewrite app_nil_r.
    + done.
    + by intros ?%Exists_nil.
  - rewrite Start_loop_cons. cbv zeta.
    destruct (decide (known_type (Type_ m))) as [Hk|Hk].
    + destruct (Register name (Help m) _ reg) as [[e0|] reg'] eqn:Hr; simpl.
      * split_and!; [done| |by eexists].
        intros e [= <-]. exists [], (name, m, order), items.
        split_and!; [done|by rewrite app_nil_r|done|done].
      * destruct (IH (hs ++ [built (name, m, order)]) reg')
          as (Hok & Herr & Hex).
        split_and!.
        -- intros Hnil. destruct (Hok Hnil) as [-> Hall]. split.
           ++ by rewrite <- app_assoc.
           ++ by constructor.
        -- intros e He.
           destruct (Herr e He) as (pre & item & post & -> & -> & Hall & Hun).
           exists ((name, m, order) :: pre), item, post.
           split_and!; [done|by rewrite <- app_assoc|by constructor|done].
        -- intros [?|?]%Exists_cons; [done|auto].
    + simpl. split_and!; [done| |by eexists].
      intros e [= <-]. exists [], (name, m, order), items.
      split_and!; [done|by rewrite app_nil_r|done|done].
Qed.

End Further.

(** ** On concrete events *)

Section FurtherConcrete.

Import Sample.

(** A counter in mode [non_exist] on [/host/name], where [host] is a
    string: the hard error of the scan counts as absence. *)
Lemma Counter_non_exist_mode_witness :
  HasPrefix "interface conversion: interface {} is not map[string]interface {}"
    "invalid path" = false ∧
  CounterVec (Counter_HandleEvent (counter "/host/name" "non_exist") bare).1
    !! ["web1"] = Some 1%float.
Proof.
  split; [reflexivity|].
  assert (Hv : Value (Counter_Metric (counter "/host/name" "non_exist")) ≠ "")
    by done.
  destruct (Counter_non_exist_mode (counter "/host/name" "non_exist") bare
              ["web1"] Hv eq_refl eq_refl) as (_ & Hcount & _).
  rewrite (Hcount _ eq_refl). apply lookup_insert_eq.
Defined.

(** A counter in mode [value] on [/n], on an event without [n], and on
    an event where [n] is a string. *)
Lemma Counter_value_mode_unresolved_witness :
  Counter_HandleEvent (counter "/n" "value") bare
    = ({| Counter_Metric := Counter_Metric (counter "/n" "value");
          CounterVec := {[ ["web1"] := 0%float ]} |}, None) ∧
  (Counter_HandleEvent (counter "/n" "value") (field (Str "x"))).2
    = Some "reflect.Set: value is not assignable to type float64".
Proof.
  assert (Hv : Value (Counter_Metric (counter "/n" "value")) ≠ "") by done.
  split.
  - destruct (Counter_value_mode_unresolved (counter "/n" "value") bare
                ["web1"] "invalid path: n" Hv eq_refl eq_refl eq_refl)
      as [Hsoft _].
    destruct (Hsoft eq_refl) as [Herr Hvec].
    destruct (Counter_HandleEvent (counter "/n" "value") bare) as [c' err]
      eqn:E.
    simpl in Herr, Hvec. subst err. f_equal.
    pose proof (Counter_HandleEvent_Metric (counter "/n" "value") bare) as HM.
    rewrite E in HM. simpl in HM. destruct c' as [m' vec']. simpl in *.
    by subst m' vec'.
  - destruct (Counter_value_mode_unresolved (counter "/n" "value")
                (field (Str "x")) ["web1"]
                "reflect.Set: value is not assignable to type float64"
                Hv eq_refl eq_refl eq_refl) as [_ Hhard].
    by destruct (Hhard eq_refl) as [-> _].
Defined.

(** A counter without value path: two events in either order. *)
Lemma Counter_counting_ignores_order_witness :
  Counter_run (counter "" "value") [bare; load 1]
  = Counter_run (counter "" "value") [load 1; bare].
Proof.
  apply Counter_counting_ignores_order.
  - by left.
  - apply perm_swap.
Defined.

End FurtherConcrete.
